(** * cilium-haegress-operator: the reconciliation engine

    A shallow embedding of the controller of [controllers] (the
    HAEgressGatewayPolicy reconciler, its event router, its watch
    predicates and its background sweeper) and of
    [util.SyncServiceWithCiliumEgressGatewayPolicy].

    The API server, the event recorder and the clock are the environment.
    They are modelled by an explicit [World] that every call threads:
    the three object stores, a fault oracle consumed by each fallible call,
    the trace of store calls with their outcome, the recorded events, the
    clock and the reconciler's [lastServiceUpdate] cell.  The merge patch
    of the synchronizer is modelled on the document the code builds: its
    effect is fixed for the one-label document and left open for any other.
    Logging is not modelled. *)

From stdpp Require Import gmap strings list.
From Stdlib Require Import ZArith Lia.

(** ** Kubernetes objects *)

(** [types.NamespacedName], as the pair (Namespace, Name). *)
Abbreviation NamespacedName := (string * string)%type.

Record OwnerReference := mkOwnerReference {
  ref_Kind : string;
  ref_Name : string;
  ref_UID : string;
  ref_Controller : option bool     (* *bool *)
}.

Record ObjectMeta := mkObjectMeta {
  Name : string;
  Namespace : string;
  UID : string;
  Labels : gmap string string;       (* a nil map reads as the empty map *)
  Annotations : gmap string string;
  OwnerReferences : list OwnerReference
}.

Record LabelSelector := mkLabelSelector {
  MatchLabels : gmap string string
}.

Record EgressRule := mkEgressRule {
  NamespaceSelector : option LabelSelector;
  PodSelector : option LabelSelector
}.

Record EgressGateway := mkEgressGateway {
  NodeSelector : LabelSelector;
  Interface : string;
  EgressIP : string
}.

(** [ciliumv2.CiliumEgressGatewayPolicySpec]; the HAEgressGatewayPolicy
    carries the same Spec type (the reconciler copies it verbatim). *)
Record CiliumEgressGatewayPolicySpec := mkCEGPSpec {
  Selectors : list EgressRule;
  DestinationCIDRs : list string;
  ExcludedCIDRs : list string;
  egressGateway : EgressGateway
}.

Record CiliumEgressGatewayPolicy := mkCEGP {
  gp_meta : ObjectMeta;
  gp_Spec : CiliumEgressGatewayPolicySpec
}.

Record ServicePort := mkServicePort {
  port_Name : string;
  port_Protocol : string;
  port_Port : Z
}.

Record ServiceSpec := mkServiceSpec {
  svc_LoadBalancerClass : option string;
  Ports : list ServicePort;
  svc_Type : string;
  Selector : gmap string string
}.

Record LoadBalancerIngress := mkIngress { IP : string }.

Record ServiceStatus := mkServiceStatus {
  Ingress : list LoadBalancerIngress   (* Status.LoadBalancer.Ingress *)
}.

Record Service := mkService {
  svc_meta : ObjectMeta;
  svc_Spec : ServiceSpec;
  svc_Status : ServiceStatus
}.

Record HAEgressGatewayPolicyStatus := mkHAStatus {
  IPAddress : string;
  ExitNode : string;
  LastModifiedTime : Z
}.

Record HAEgressGatewayPolicy := mkHAPolicy {
  ha_meta : ObjectMeta;
  ha_Spec : CiliumEgressGatewayPolicySpec;
  ha_Status : HAEgressGatewayPolicyStatus
}.

#[global] Instance OwnerReference_eq_dec : EqDecision OwnerReference.
Proof. solve_decision. Defined.
#[global] Instance ObjectMeta_eq_dec : EqDecision ObjectMeta.
Proof. solve_decision. Defined.
#[global] Instance LabelSelector_eq_dec : EqDecision LabelSelector.
Proof. solve_decision. Defined.
#[global] Instance EgressRule_eq_dec : EqDecision EgressRule.
Proof. solve_decision. Defined.
#[global] Instance EgressGateway_eq_dec : EqDecision EgressGateway.
Proof. solve_decision. Defined.
#[global] Instance CiliumEgressGatewayPolicySpec_eq_dec :
  EqDecision CiliumEgressGatewayPolicySpec.
Proof. solve_decision. Defined.
#[global] Instance CiliumEgressGatewayPolicy_eq_dec :
  EqDecision CiliumEgressGatewayPolicy.
Proof. solve_decision. Defined.
#[global] Instance ServicePort_eq_dec : EqDecision ServicePort.
Proof. solve_decision. Defined.
#[global] Instance ServiceSpec_eq_dec : EqDecision ServiceSpec.
Proof. solve_decision. Defined.
#[global] Instance LoadBalancerIngress_eq_dec : EqDecision LoadBalancerIngress.
Proof. solve_decision. Defined.
#[global] Instance ServiceStatus_eq_dec : EqDecision ServiceStatus.
Proof. solve_decision. Defined.
#[global] Instance Service_eq_dec : EqDecision Service.
Proof. solve_decision. Defined.
#[global] Instance HAEgressGatewayPolicyStatus_eq_dec :
  EqDecision HAEgressGatewayPolicyStatus.
Proof. solve_decision. Defined.
#[global] Instance HAEgressGatewayPolicy_eq_dec : EqDecision HAEgressGatewayPolicy.
Proof. solve_decision. Defined.

(** Reading a Go [map[string]string]: a missing key gives the zero value. *)
Definition mapIndex (m : gmap string string) (k : string) : string :=
  default EmptyString (m !! k).

(** Field updates written the way the Go assignments read. *)
Definition withOwnerReferences (refs : list OwnerReference) (m : ObjectMeta)
  : ObjectMeta :=
  mkObjectMeta (Name m) (Namespace m) (UID m) (Labels m) (Annotations m) refs.

Definition withSelectors (sel : list EgressRule)
  (s : CiliumEgressGatewayPolicySpec) : CiliumEgressGatewayPolicySpec :=
  mkCEGPSpec sel (DestinationCIDRs s) (ExcludedCIDRs s) (egressGateway s).

Definition withEgressIP (ip : string)
  (s : CiliumEgressGatewayPolicySpec) : CiliumEgressGatewayPolicySpec :=
  mkCEGPSpec (Selectors s) (DestinationCIDRs s) (ExcludedCIDRs s)
    (mkEgressGateway (NodeSelector (egressGateway s))
       (Interface (egressGateway s)) ip).

Definition withNodeLabel (k v : string)
  (s : CiliumEgressGatewayPolicySpec) : CiliumEgressGatewayPolicySpec :=
  mkCEGPSpec (Selectors s) (DestinationCIDRs s) (ExcludedCIDRs s)
    (mkEgressGateway
       (mkLabelSelector (<[k:=v]> (MatchLabels (NodeSelector (egressGateway s)))))
       (Interface (egressGateway s)) (EgressIP (egressGateway s))).

(** ** Owner references ([metav1] and [controllerutil]) *)

(** [metav1.GetControllerOf]: the first reference whose Controller flag is
    set and true. *)
Definition isController (ref : OwnerReference) : bool :=
  match ref_Controller ref with Some true => true | _ => false end.

Definition GetControllerOf (m : ObjectMeta) : option OwnerReference :=
  List.find isController (OwnerReferences m).

(** [metav1.IsControlledBy obj owner]. *)
Definition IsControlledBy (obj owner : ObjectMeta) : bool :=
  match GetControllerOf obj with
  | None => false
  | Some ref => bool_decide (ref_UID ref = UID owner)
  end.

(** ** The environment *)

(** Errors the Go code tells apart: [apierrors.IsNotFound] recognises
    [NotFound]; every other failure of a call is opaque to the controller. *)
Inductive Error :=
| NotFound
| AlreadyExists
| AlreadyOwned
| Transient (code : nat).

Definition IsNotFound (e : Error) : bool :=
  match e with NotFound => true | _ => false end.

(** The calls of [client.Client] the controller makes. *)
Inductive Call :=
| GetPolicyCall (key : NamespacedName)
| GetGatewayPolicyCall (key : NamespacedName)
| GetServiceCall (key : NamespacedName)
| ListPoliciesCall
| CreateGatewayPolicyCall (o : CiliumEgressGatewayPolicy)
| CreateServiceCall (o : Service)
| UpdateGatewayPolicyCall (o : CiliumEgressGatewayPolicy)
| UpdateServiceCall (o : Service)
| StatusUpdatePolicyCall (o : HAEgressGatewayPolicy)
| PatchGatewayPolicyCall (key : NamespacedName) (label value : string).

(** Create, update and patch calls, as opposed to reads. *)
Definition isWrite (c : Call) : bool :=
  match c with
  | GetPolicyCall _ | GetGatewayPolicyCall _ | GetServiceCall _
  | ListPoliciesCall => false
  | _ => true
  end.

Inductive Kind := PolicyKind | GatewayPolicyKind | ServiceKind.

(** What [record.EventRecorder.Event] appends to an object's history. *)
Record Event := mkEvent {
  ev_kind : Kind;
  ev_object : NamespacedName;
  ev_type : string;
  ev_reason : string;
  ev_message : string
}.

Record Cluster := mkCluster {
  policies : gmap NamespacedName HAEgressGatewayPolicy;
  gatewayPolicies : gmap NamespacedName CiliumEgressGatewayPolicy;
  services : gmap NamespacedName Service
}.

(** [faults] is the oracle for failures the controller cannot foresee
    (network, timeout, conflict, a scheme that rejects an owner): each
    fallible call consumes its head; [Some c] makes the call fail with
    [Transient c] and leaves the store as it is, [None] (or an exhausted
    oracle) lets the call run against the store. *)
Record World := mkWorld {
  store : Cluster;
  faults : list (option nat);
  trace : list (Call * option Error);
  events : list Event;
  now : Z;                          (* the clock, in nanoseconds *)
  lastServiceUpdate : option Z      (* the reconciler's atomic.Value *)
}.

(** The state monad every call runs in.  Errors are ordinary results, as
    in Go: the code tests them where the source tests [err]. *)
Definition M (A : Type) : Type := World → A * World.

#[global] Instance M_ret : MRet M := λ A (a : A) w, (a, w).
#[global] Instance M_bind : MBind M :=
  λ A B (f : A → M B) (m : M A) w, let '(a, w1) := m w in f a w1.

Definition popFault : M (option nat) := λ w,
  (hd None (faults w),
   mkWorld (store w) (tl (faults w)) (trace w) (events w) (now w)
     (lastServiceUpdate w)).

Definition logCall (c : Call) (e : option Error) : M unit := λ w,
  (tt, mkWorld (store w) (faults w) (trace w ++ [(c, e)]) (events w) (now w)
         (lastServiceUpdate w)).

Definition getStore : M Cluster := λ w, (store w, w).

Definition putStore (s : Cluster) : M unit := λ w,
  (tt, mkWorld s (faults w) (trace w) (events w) (now w) (lastServiceUpdate w)).

(** [r.Recorder.Event(object, eventtype, reason, message)]. *)
Definition RecorderEvent (k : Kind) (m : ObjectMeta) (ty reason msg : string)
  : M unit := λ w,
  (tt, mkWorld (store w) (faults w) (trace w)
         (events w ++ [mkEvent k (Namespace m, Name m) ty reason msg])
         (now w) (lastServiceUpdate w)).

(** [time.Now()]. *)
Definition timeNow : M Z := λ w, (now w, w).

(** [r.lastServiceUpdate.Store(t)]. *)
Definition lastServiceUpdateStore (t : Z) : M unit := λ w,
  (tt, mkWorld (store w) (faults w) (trace w) (events w) (now w) (Some t)).

(** [r.lastServiceUpdate.Load()]. *)
Definition lastServiceUpdateLoad : M (option Z) := λ w, (lastServiceUpdate w, w).

Definition errorOf {A} (r : Error + A) : option Error :=
  match r with inl e => Some e | inr _ => None end.

(** A read of one object: a fault, else not-found, else the stored copy. *)
Definition storeGet {A} (c : Call) (sel : Cluster → gmap NamespacedName A)
  (key : NamespacedName) : M (Error + A) :=
  f ← popFault;
  s ← getStore;
  let r := match f with
           | Some code => inl (Transient code)
           | None => match sel s !! key with
                     | None => inl NotFound
                     | Some o => inr o
                     end
           end in
  _ ← logCall c (errorOf r);
  mret r.

(** A write: a fault, else what the store decides; the store changes only
    when the call succeeds. *)
Definition storeWrite (c : Call) (upd : Cluster → Error + Cluster)
  : M (option Error) :=
  f ← popFault;
  s ← getStore;
  let r := match f with
           | Some code => inl (Transient code)
           | None => upd s
           end in
  _ ← putStore (match r with inr s' => s' | inl _ => s end);
  _ ← logCall c (errorOf r);
  mret (errorOf r).

Definition GetPolicy (key : NamespacedName) : M (Error + HAEgressGatewayPolicy) :=
  storeGet (GetPolicyCall key) policies key.

Definition GetGatewayPolicy (key : NamespacedName)
  : M (Error + CiliumEgressGatewayPolicy) :=
  storeGet (GetGatewayPolicyCall key) gatewayPolicies key.

Definition GetService (key : NamespacedName) : M (Error + Service) :=
  storeGet (GetServiceCall key) services key.

(** [r.List(ctx, &policies)]. *)
Definition ListPolicies : M (Error + list HAEgressGatewayPolicy) :=
  f ← popFault;
  s ← getStore;
  let r := match f with
           | Some code => inl (Transient code)
           | None => inr ((map_to_list (policies s)).*2)
           end in
  _ ← logCall ListPoliciesCall (errorOf r);
  mret r.

Definition keyOf (m : ObjectMeta) : NamespacedName := (Namespace m, Name m).

(** [r.Create]: refused when the name is taken; the object is stored as
    sent (fields the server would fill in are not modelled). *)
Definition CreateGatewayPolicy (o : CiliumEgressGatewayPolicy) : M (option Error) :=
  storeWrite (CreateGatewayPolicyCall o) (λ s,
    match gatewayPolicies s !! keyOf (gp_meta o) with
    | Some _ => inl AlreadyExists
    | None => inr (mkCluster (policies s)
                     (<[keyOf (gp_meta o) := o]> (gatewayPolicies s)) (services s))
    end).

Definition CreateService (o : Service) : M (option Error) :=
  storeWrite (CreateServiceCall o) (λ s,
    match services s !! keyOf (svc_meta o) with
    | Some _ => inl AlreadyExists
    | None => inr (mkCluster (policies s) (gatewayPolicies s)
                     (<[keyOf (svc_meta o) := o]> (services s)))
    end).

(** [r.Update]: the stored object is replaced by the one sent. *)
Definition UpdateGatewayPolicy (o : CiliumEgressGatewayPolicy) : M (option Error) :=
  storeWrite (UpdateGatewayPolicyCall o) (λ s,
    match gatewayPolicies s !! keyOf (gp_meta o) with
    | None => inl NotFound
    | Some _ => inr (mkCluster (policies s)
                       (<[keyOf (gp_meta o) := o]> (gatewayPolicies s)) (services s))
    end).

(** [r.Update] of a Service: metadata and spec are replaced by what is
    sent; the status belongs to the status subresource and stays. *)
Definition UpdateService (o : Service) : M (option Error) :=
  storeWrite (UpdateServiceCall o) (λ s,
    match services s !! keyOf (svc_meta o) with
    | None => inl NotFound
    | Some old =>
        inr (mkCluster (policies s) (gatewayPolicies s)
               (<[keyOf (svc_meta o) :=
                    mkService (svc_meta o) (svc_Spec o) (svc_Status old)]>
                  (services s)))
    end).

(** [r.Status().Update]: only the status of the stored Policy changes. *)
Definition StatusUpdatePolicy (o : HAEgressGatewayPolicy) : M (option Error) :=
  storeWrite (StatusUpdatePolicyCall o) (λ s,
    match policies s !! keyOf (ha_meta o) with
    | None => inl NotFound
    | Some old =>
        inr (mkCluster
               (<[keyOf (ha_meta o) :=
                    mkHAPolicy (ha_meta old) (ha_Spec old) (ha_Status o)]>
                  (policies s))
               (gatewayPolicies s) (services s))
    end).

(** The kind the owner references of the derived objects carry; the
    router and the synchronizer compare [ownerRef.Kind] with it. *)
Definition HAEgressGatewayPolicyKind : string := "HAEgressGatewayPolicy".

Definition referSameObject (a b : OwnerReference) : bool :=
  bool_decide (ref_Kind a = ref_Kind b) && bool_decide (ref_Name a = ref_Name b).

Fixpoint upsertOwnerRef (ref : OwnerReference) (refs : list OwnerReference)
  : list OwnerReference :=
  match refs with
  | [] => [ref]
  | r :: rest =>
      if referSameObject r ref then ref :: rest else r :: upsertOwnerRef ref rest
  end.

Definition controllerRef (owner : HAEgressGatewayPolicy) : OwnerReference :=
  mkOwnerReference HAEgressGatewayPolicyKind (Name (ha_meta owner))
    (UID (ha_meta owner)) (Some true).

(** [controllerutil.SetControllerReference(owner, object, scheme)]: fails
    when the scheme or the owner is rejected (a fault), or when the object
    already has another controller; else the controller reference to the
    owner is put in place (replacing a reference to the same owner). *)
Definition setControllerReference (owner : HAEgressGatewayPolicy) (m : ObjectMeta)
  : Error + ObjectMeta :=
  let ref := controllerRef owner in
  match GetControllerOf m with
  | Some existing =>
      if referSameObject existing ref
      then inr (withOwnerReferences (upsertOwnerRef ref (OwnerReferences m)) m)
      else inl AlreadyOwned
  | None => inr (withOwnerReferences (upsertOwnerRef ref (OwnerReferences m)) m)
  end.

Definition SetControllerReference (owner : HAEgressGatewayPolicy) (m : ObjectMeta)
  : M (Error + ObjectMeta) :=
  f ← popFault;
  mret (match f with
        | Some code => inl (Transient code)
        | None => setControllerReference owner m
        end).

(** ** What the sources at hand leave open

    The constants of package [haegressip], which is not part of the
    sources, and the answer of the API server to a merge patch other than
    the one-label document (see [mergePatch] below): the controller is
    verified for every value of them. *)
Record Consts := mkConsts {
  HAEgressGatewayPolicyNamespace : string;
  HAEgressGatewayPolicyName : string;
  KubernetesServiceProxyNameAnnotation : string;
  NodeNameAnnotation : string;
  KubeVIPVipHostAnnotation : string;
  EventEgressUpdateReason : string;
  HAEgressGatewayPolicyChcekRequeueAfter : Z;
  LeaseCheckRequeueAfter : Z;
  OtherPatchAnswer
    : string → CiliumEgressGatewayPolicy → Error + CiliumEgressGatewayPolicy
}.

(** [ctrl.Result]. *)
Record Result := mkResult { RequeueAfter : Z }.

#[global] Instance Error_eq_dec : EqDecision Error.
Proof. solve_decision. Defined.
#[global] Instance Call_eq_dec : EqDecision Call.
Proof. solve_decision. Defined.
#[global] Instance Result_eq_dec : EqDecision Result.
Proof. solve_decision. Defined.

(** The zero value [&v2.HAEgressGatewayPolicy{}]. *)
Definition emptyObjectMeta : ObjectMeta :=
  mkObjectMeta EmptyString EmptyString EmptyString ∅ ∅ [].

Definition emptyPolicy : HAEgressGatewayPolicy :=
  mkHAPolicy emptyObjectMeta
    (mkCEGPSpec [] [] []
       (mkEgressGateway (mkLabelSelector ∅) EmptyString EmptyString))
    (mkHAStatus EmptyString EmptyString 0).

Definition isPolicyRef (ref : OwnerReference) : bool :=
  bool_decide (ref_Kind ref = HAEgressGatewayPolicyKind).

Definition withIPAddress (ip : string) (t : Z) (p : HAEgressGatewayPolicy)
  : HAEgressGatewayPolicy :=
  mkHAPolicy (ha_meta p) (ha_Spec p) (mkHAStatus ip (ExitNode (ha_Status p)) t).

Definition withExitNode (node : string) (t : Z) (p : HAEgressGatewayPolicy)
  : HAEgressGatewayPolicy :=
  mkHAPolicy (ha_meta p) (ha_Spec p) (mkHAStatus (IPAddress (ha_Status p)) node t).

(** [%q] on an object name (names hold nothing that [%q] escapes). *)
Definition quoted (s : string) : string :=
  String (Ascii.ascii_of_nat 34) EmptyString +:+ s
  +:+ String (Ascii.ascii_of_nat 34) EmptyString.

(** ** The merge patch of the synchronizer *)

Definition dquote : string := String (Ascii.ascii_of_nat 34) EmptyString.

(** The document the synchronizer sends: the format string of its
    [fmt.Sprintf], with the label and the value spliced in as they are.
    Nothing escapes them. *)
Definition patchOpen : string :=
  "{" +:+ dquote +:+ "spec" +:+ dquote +:+ ":{"
  +:+ dquote +:+ "egressGateway" +:+ dquote +:+ ":{"
  +:+ dquote +:+ "nodeSelector" +:+ dquote +:+ ":{"
  +:+ dquote +:+ "matchLabels" +:+ dquote +:+ ":{".

Definition patchClose : string := "}}}}}".

Definition patchData (label value : string) : string :=
  patchOpen +:+ dquote +:+ label +:+ dquote +:+ ":" +:+ dquote +:+ value
  +:+ dquote +:+ patchClose.

(** The bytes that stand for themselves inside a JSON string: printable
    ASCII other than the quote and the backslash. *)
Definition plainChar (c : Ascii.ascii) : bool :=
  let n := Ascii.nat_of_ascii c in
  (32 <=? n) && (n <? 127) && negb (n =? 34) && negb (n =? 92).

Fixpoint plainText (s : string) : bool :=
  match s with
  | EmptyString => true
  | String c s' => plainChar c && plainText s'
  end.

Fixpoint stripPrefix (p s : string) : option string :=
  match p, s with
  | EmptyString, _ => Some s
  | String a p', String b s' =>
      if Ascii.eqb a b then stripPrefix p' s' else None
  | String _ _, EmptyString => None
  end.

(** The longest prefix of plain bytes, and what follows it. *)
Fixpoint readPlain (s : string) : string * string :=
  match s with
  | EmptyString => (EmptyString, EmptyString)
  | String c s' =>
      if plainChar c
      then let '(t, rest) := readPlain s' in (String c t, rest)
      else (EmptyString, s)
  end.

(** What the API server reads: a document that is, byte for byte, the
    format string around two strings of plain bytes names one label of
    [spec.egressGateway.nodeSelector.matchLabels] and its value. *)
Definition singleLabelPatch (doc : string) : option (string * string) :=
  s1 ← stripPrefix patchOpen doc;
  s2 ← stripPrefix dquote s1;
  let '(label, s3) := readPlain s2 in
  s4 ← stripPrefix dquote s3;
  s5 ← stripPrefix ":" s4;
  s6 ← stripPrefix dquote s5;
  let '(value, s7) := readPlain s6 in
  if bool_decide (s7 = dquote +:+ patchClose)
  then Some (label, value) else None.

(** The JSON merge patch (RFC 7386) of a GatewayPolicy.  The one-label
    document sets that label and leaves every other field.  Any other
    document (a label or a value with a quote, a backslash or a byte
    outside printable ASCII gives one) is outside the model: it may be
    refused as invalid, or be a valid patch that rewrites other fields of
    the object; the answer is [OtherPatchAnswer], about which nothing is
    assumed. *)
Definition mergePatch (K : Consts) (doc : string)
  (old : CiliumEgressGatewayPolicy) : Error + CiliumEgressGatewayPolicy :=
  match singleLabelPatch doc with
  | Some (label, value) =>
      inr (mkCEGP (gp_meta old) (withNodeLabel label value (gp_Spec old)))
  | None => OtherPatchAnswer K doc old
  end.

(** [r.Patch(ctx, &ciliumEgressGatewayPolicy,
    client.RawPatch(types.MergePatchType, []byte(patchData)))], with
    [patchData] built from the label and the value. *)
Definition PatchGatewayPolicy (K : Consts) (key : NamespacedName)
  (label value : string) : M (option Error) :=
  storeWrite (PatchGatewayPolicyCall key label value) (λ s,
    match gatewayPolicies s !! key with
    | None => inl NotFound
    | Some old =>
        match mergePatch K (patchData label value) old with
        | inl err => inl err
        | inr new =>
            inr (mkCluster (policies s) (<[key := new]> (gatewayPolicies s))
                   (services s))
        end
    end).

Section Controller.

Variable K : Consts.

(** ** The Feedback Synchronizer (package [util]) *)

(** The function reads as three blocks; each is a definition of its own
    and [SyncServiceWithCiliumEgressGatewayPolicy] chains them.  A block
    that returns from the function gives [inl] of what is returned. *)

(** Get the parent HAEgressGatewayPolicy from the ciliumEgressGatewayPolicy:
    the first owner reference of the kind decides (the loop breaks after
    it); without one the zero value stays. *)
Definition syncFetchOwner (ciliumEgressGatewayPolicy : CiliumEgressGatewayPolicy)
  : M (Error + HAEgressGatewayPolicy) :=
  match List.find isPolicyRef
          (OwnerReferences (gp_meta ciliumEgressGatewayPolicy)) with
  | None => mret (inr emptyPolicy)
  | Some ownerRef =>
      GetPolicy (Namespace (gp_meta ciliumEgressGatewayPolicy), ref_Name ownerRef)
  end.

(** The block [if len(service.Status.LoadBalancer.Ingress) > 0]. *)
Definition syncAddress (service : Service)
  (ciliumEgressGatewayPolicy : CiliumEgressGatewayPolicy)
  (haEgressGatewayPolicy : HAEgressGatewayPolicy)
  : M (Result * option Error + HAEgressGatewayPolicy) :=
  match Ingress (svc_Status service) with
  | [] => mret (inr haEgressGatewayPolicy)
  | ingress0 :: _ =>
      (* Fetch updated version of the object in order to avoid to update
         with stale data *)
      fresh ← GetGatewayPolicy (keyOf (gp_meta ciliumEgressGatewayPolicy));
      match fresh with
      | inl err =>
          mret (inl (mkResult (HAEgressGatewayPolicyChcekRequeueAfter K), Some err))
      | inr ciliumEgressGatewayPolicyUpdated =>
          upd ← (if bool_decide
                      (EgressIP (egressGateway
                         (gp_Spec ciliumEgressGatewayPolicyUpdated))
                       ≠ IP ingress0)
                 then UpdateGatewayPolicy
                        (mkCEGP (gp_meta ciliumEgressGatewayPolicyUpdated)
                           (withEgressIP (IP ingress0)
                              (gp_Spec ciliumEgressGatewayPolicyUpdated)))
                 else mret None);
          match upd with
          | Some _ =>
              mret (inl (mkResult (HAEgressGatewayPolicyChcekRequeueAfter K), None))
          | None =>
              if bool_decide (IPAddress (ha_Status haEgressGatewayPolicy)
                              ≠ IP ingress0)
              then
                t ← timeNow;
                let p := withIPAddress (IP ingress0) t haEgressGatewayPolicy in
                _ ← StatusUpdatePolicy p;
                mret (inr p)
              else mret (inr haEgressGatewayPolicy)
          end
      end
  end.

(** From [if currentHost == ""] to the end. *)
Definition syncNode (service : Service)
  (ciliumEgressGatewayPolicy : CiliumEgressGatewayPolicy)
  (haEgressGatewayPolicy : HAEgressGatewayPolicy)
  : M (Result * option Error) :=
  let policyHost :=
    mapIndex (MatchLabels (NodeSelector
                (egressGateway (gp_Spec ciliumEgressGatewayPolicy))))
             (NodeNameAnnotation K) in
  let currentHost :=
    mapIndex (Annotations (svc_meta service)) (KubeVIPVipHostAnnotation K) in
  if bool_decide (currentHost = EmptyString)
  then mret (mkResult 0, None)
  else
    _ ← (if bool_decide (ExitNode (ha_Status haEgressGatewayPolicy) ≠ currentHost)
         then
           t ← timeNow;
           _ ← StatusUpdatePolicy (withExitNode currentHost t haEgressGatewayPolicy);
           mret tt
         else mret tt);
    if bool_decide (policyHost = currentHost)
    then mret (mkResult 0, None)
    else
      (* Modify egressPolicy nodeSelector to match the service *)
      perr ← PatchGatewayPolicy K (keyOf (gp_meta ciliumEgressGatewayPolicy))
               (NodeNameAnnotation K) currentHost;
      match perr with
      | Some err => mret (mkResult (LeaseCheckRequeueAfter K), Some err)
      | None =>
          _ ← RecorderEvent GatewayPolicyKind (gp_meta ciliumEgressGatewayPolicy)
                "Normal" (EventEgressUpdateReason K)
                ("Updated with new nodeSelector " +:+ NodeNameAnnotation K
                 +:+ "=" +:+ currentHost +:+ " by "
                 +:+ Namespace (svc_meta service) +:+ "/"
                 +:+ Name (svc_meta service) +:+ " service");
          _ ← RecorderEvent ServiceKind (svc_meta service)
                "Normal" (EventEgressUpdateReason K)
                ("Updated CiliumEgressGatewayPolicy "
                 +:+ Name (gp_meta ciliumEgressGatewayPolicy)
                 +:+ " with new nodeSelector " +:+ NodeNameAnnotation K
                 +:+ "=" +:+ currentHost);
          mret (mkResult 0, None)
      end.

Definition SyncServiceWithCiliumEgressGatewayPolicy
  (service : Service) (ciliumEgressGatewayPolicy : CiliumEgressGatewayPolicy)
  : M (Result * option Error) :=
  owner ← syncFetchOwner ciliumEgressGatewayPolicy;
  match owner with
  | inl _ => mret (mkResult 0, None)
  | inr haEgressGatewayPolicy =>
      addr ← syncAddress service ciliumEgressGatewayPolicy haEgressGatewayPolicy;
      match addr with
      | inl res => mret res
      | inr haEgressGatewayPolicy =>
          syncNode service ciliumEgressGatewayPolicy haEgressGatewayPolicy
      end
  end.

(** ** The Drift Reconciler (package [controllers]) *)

(** [HAEgressGatewayPolicyReconciler]: the fields the code reads. *)
Record HAEgressGatewayPolicyReconciler := mkReconciler {
  EgressNamespace : string;
  LoadBalancerClass : string;
  BackgroundCheckerSeconds : Z       (* Go int *)
}.

Variable r : HAEgressGatewayPolicyReconciler.

(** The target namespace: the annotation when set, else the default. *)
Definition serviceNamespaceOf (haEgressGatewayPolicy : HAEgressGatewayPolicy)
  : string :=
  if bool_decide (mapIndex (Annotations (ha_meta haEgressGatewayPolicy))
                    (HAEgressGatewayPolicyNamespace K) ≠ EmptyString)
  then mapIndex (Annotations (ha_meta haEgressGatewayPolicy))
         (HAEgressGatewayPolicyNamespace K)
  else EgressNamespace r.

(** The object built at the top of UpdateOrCreateCiliumEgressGatewayPolicy,
    before the controller reference is set. *)
Definition ciliumEgressGatewayPolicyNew (haEgressGatewayPolicy : HAEgressGatewayPolicy)
  : CiliumEgressGatewayPolicy :=
  mkCEGP
    (mkObjectMeta
       (serviceNamespaceOf haEgressGatewayPolicy +:+ "-"
        +:+ Name (ha_meta haEgressGatewayPolicy))
       EmptyString EmptyString
       (Labels (ha_meta haEgressGatewayPolicy))
       (Annotations (ha_meta haEgressGatewayPolicy))
       [])
    (ha_Spec haEgressGatewayPolicy).

Definition UpdateOrCreateCiliumEgressGatewayPolicy
  (haEgressGatewayPolicy : HAEgressGatewayPolicy) : M (option Error) :=
  (* Save the last update date in order to delay the next background check *)
  t ← timeNow;
  _ ← lastServiceUpdateStore t;
  let serviceNamespace := serviceNamespaceOf haEgressGatewayPolicy in
  let new0 := ciliumEgressGatewayPolicyNew haEgressGatewayPolicy in
  (* Set HAEgressGatewayPolicy instance as the owner and controller *)
  owned ← SetControllerReference haEgressGatewayPolicy (gp_meta new0);
  match owned with
  | inl err => mret (Some err)
  | inr meta1 =>
      let new1 := mkCEGP meta1 (gp_Spec new0) in
      got ← GetGatewayPolicy (EmptyString, Name (gp_meta new1));
      match got with
      | inl err =>
          if IsNotFound err then
            cerr ← CreateGatewayPolicy new1;
            _ ← RecorderEvent PolicyKind (ha_meta haEgressGatewayPolicy)
                  "Normal" "Created"
                  ("CiliumEgressGatewayPolicy " +:+ quoted (Name (gp_meta new1))
                   +:+ " created");
            match cerr with
            | Some err => mret (Some err)
            | None =>
                owned2 ← SetControllerReference haEgressGatewayPolicy (gp_meta new1);
                match owned2 with
                | inl err => mret (Some err)
                | inr meta2 =>
                    let new2 := mkCEGP meta2 (gp_Spec new1) in
                    (* If service already exists, reconcile *)
                    svc ← GetService (serviceNamespace,
                                      Name (ha_meta haEgressGatewayPolicy));
                    match svc with
                    | inr service =>
                        '(_, syncError) ←
                          SyncServiceWithCiliumEgressGatewayPolicy service new2;
                        mret syncError
                    | inl _ => mret None
                    end
                end
            end
          else mret (Some err)
      | inr ciliumEgressGatewayPolicyExist =>
          (* Update CiliumEgressGatewayPolicy if this policy is managed by the HA *)
          if negb (IsControlledBy (gp_meta ciliumEgressGatewayPolicyExist)
                     (ha_meta haEgressGatewayPolicy))
          then
            _ ← RecorderEvent PolicyKind (ha_meta haEgressGatewayPolicy)
                  "Warning" "AlreadyExists"
                  ("Resource "
                   +:+ quoted (Name (gp_meta ciliumEgressGatewayPolicyExist))
                   +:+ " already exists and is not managed by HAEgressGatewayPolicy");
            mret None
          else if bool_decide (Selectors (gp_Spec ciliumEgressGatewayPolicyExist)
                               ≠ Selectors (gp_Spec new1))
          then
            uerr ← UpdateGatewayPolicy
                     (mkCEGP (gp_meta ciliumEgressGatewayPolicyExist)
                        (withSelectors (Selectors (gp_Spec new1))
                           (gp_Spec ciliumEgressGatewayPolicyExist)));
            match uerr with
            | Some err => mret (Some err)
            | None =>
                _ ← RecorderEvent PolicyKind (ha_meta haEgressGatewayPolicy)
                      "Normal" "Updated"
                      ("CiliumEgressGatewayPolicy "
                       +:+ quoted (Name (gp_meta ciliumEgressGatewayPolicyExist))
                       +:+ " updated");
                mret None
            end
          else mret None
      end
  end.

(** The Service built at the top of UpdateOrCreateService, labels
    injected, before the controller reference is set.  (In Go the label map
    is the Policy's own map unless that is nil, so the three labels also
    land in the in-memory Policy; nothing reads it again in the call.)
    [reflect.DeepEqual] on the selectors is equality of the model's values:
    the desired Service selector is never empty, so a nil and an empty
    stored selector both differ from it. *)
Definition desiredSelector (haEgressGatewayPolicy : HAEgressGatewayPolicy)
  : gmap string string :=
  <[HAEgressGatewayPolicyName K := Name (ha_meta haEgressGatewayPolicy)]>
    {[HAEgressGatewayPolicyNamespace K := serviceNamespaceOf haEgressGatewayPolicy]}.

Definition serviceNew (haEgressGatewayPolicy : HAEgressGatewayPolicy) : Service :=
  let serviceNamespace := serviceNamespaceOf haEgressGatewayPolicy in
  mkService
    (mkObjectMeta
       (Name (ha_meta haEgressGatewayPolicy))
       serviceNamespace
       EmptyString
       (<[HAEgressGatewayPolicyName K := Name (ha_meta haEgressGatewayPolicy)]>
          (<[HAEgressGatewayPolicyNamespace K := serviceNamespace]>
             (<[KubernetesServiceProxyNameAnnotation K :=
                  "kubevip-managed-by-cilium-haegess"]>
                (Labels (ha_meta haEgressGatewayPolicy)))))
       (Annotations (ha_meta haEgressGatewayPolicy))
       [])
    (mkServiceSpec (Some (LoadBalancerClass r))
       [mkServicePort "nope" "TCP" 65534]
       "LoadBalancer"
       (* Points nowhere, is a serviceless service used to create the IP object *)
       (desiredSelector haEgressGatewayPolicy))
    (mkServiceStatus []).

Definition UpdateOrCreateService
  (haEgressGatewayPolicy : HAEgressGatewayPolicy) : M (option Error) :=
  (* Save the last update date in order to delay the next background check *)
  t ← timeNow;
  _ ← lastServiceUpdateStore t;
  let service0 := serviceNew haEgressGatewayPolicy in
  (* Set HAEgressGatewayPolicy instance as the owner and controller *)
  owned ← SetControllerReference haEgressGatewayPolicy (svc_meta service0);
  match owned with
  | inl err => mret (Some err)
  | inr meta1 =>
      let service := mkService meta1 (svc_Spec service0) (svc_Status service0) in
      got ← GetService (Namespace (svc_meta service), Name (svc_meta service));
      match got with
      | inl err =>
          if IsNotFound err then
            cerr ← CreateService service;
            _ ← RecorderEvent PolicyKind (ha_meta haEgressGatewayPolicy)
                  "Normal" "Created"
                  ("Service " +:+ Namespace (svc_meta service) +:+ "/"
                   +:+ Name (svc_meta service) +:+ " created");
            mret cerr
          else mret (Some err)
      | inr found =>
          (* Update service if needed *)
          if negb (IsControlledBy (svc_meta found) (ha_meta haEgressGatewayPolicy))
          then
            _ ← RecorderEvent PolicyKind (ha_meta haEgressGatewayPolicy)
                  "Warning" "AlreadyExists"
                  ("Resource " +:+ quoted (Name (svc_meta found))
                   +:+ " already exists and is not managed by HAEgressGatewayPolicy");
            mret None
          else if bool_decide (Selector (svc_Spec found)
                               ≠ Selector (svc_Spec service))
          then UpdateService service
          else mret None
      end
  end.

(** [Reconcile]: fetch the Policy, then the two steps; a failing step asks
    for a requeue and is returned. *)
Definition Reconcile (req : NamespacedName) : M (Result * option Error) :=
  got ← GetPolicy req;
  match got with
  | inl err =>
      if IsNotFound err then mret (mkResult 0, None)
      else mret (mkResult 0, Some err)
  | inr haEgressGatewayPolicy =>
      e1 ← UpdateOrCreateCiliumEgressGatewayPolicy haEgressGatewayPolicy;
      match e1 with
      | Some err =>
          mret (mkResult (HAEgressGatewayPolicyChcekRequeueAfter K), Some err)
      | None =>
          e2 ← UpdateOrCreateService haEgressGatewayPolicy;
          match e2 with
          | Some err =>
              mret (mkResult (HAEgressGatewayPolicyChcekRequeueAfter K), Some err)
          | None => mret (mkResult 0, None)
          end
      end
  end.

(** ** The Event Router *)

(** One request is appended for every owner reference of the kind; the
    namespace is the watched object's own. *)
Definition findObjectsForHaegressGatewayPolicy (obj : ObjectMeta)
  : list NamespacedName :=
  fold_left
    (λ requests ownerRef,
       if bool_decide (ref_Kind ownerRef = HAEgressGatewayPolicyKind)
       then requests ++ [(Namespace obj, ref_Name ownerRef)]
       else requests)
    (OwnerReferences obj) [].

(** The events a watch delivers. *)
Inductive WatchEvent :=
| CreateEvent (obj : ObjectMeta)
| UpdateEvent (objectOld objectNew : ObjectMeta)
| DeleteEvent (obj : ObjectMeta)
| GenericEvent (obj : ObjectMeta).

(** The [predicate.Funcs] given to a watch in SetupWithManager. *)
Definition servicePredicate (e : WatchEvent) : bool :=
  match e with
  | DeleteEvent _ => true
  | CreateEvent _ => false
  | UpdateEvent _ _ => false
  | GenericEvent _ => false
  end.

Definition ciliumEgressGatewayPolicyPredicate (e : WatchEvent) : bool :=
  match e with
  | DeleteEvent _ => true
  | CreateEvent _ => false
  | UpdateEvent _ _ => false
  | GenericEvent _ => false
  end.

Definition watchPredicate (k : Kind) (e : WatchEvent) : bool :=
  match k with
  | ServiceKind => servicePredicate e
  | GatewayPolicyKind => ciliumEgressGatewayPolicyPredicate e
  | PolicyKind => true               (* [For]: no predicate *)
  end.

(** [handler.EnqueueRequestsFromMapFunc]: the map function is applied to
    the object of the event (to both objects of an update) and a request is
    added once. *)
Definition mapAndEnqueue (q : list NamespacedName) (reqs : list NamespacedName)
  : list NamespacedName :=
  fold_left (λ q req, if bool_decide (req ∈ q) then q else q ++ [req]) reqs q.

Definition enqueueRequestsFromMapFunc (e : WatchEvent) : list NamespacedName :=
  match e with
  | CreateEvent obj | DeleteEvent obj | GenericEvent obj =>
      mapAndEnqueue [] (findObjectsForHaegressGatewayPolicy obj)
  | UpdateEvent objectOld objectNew =>
      mapAndEnqueue
        (mapAndEnqueue [] (findObjectsForHaegressGatewayPolicy objectOld))
        (findObjectsForHaegressGatewayPolicy objectNew)
  end.

(** The reconcile requests a watch event on a derived object of kind [k]
    puts on the queue: none when the predicate filters the event. *)
Definition watchRequests (k : Kind) (e : WatchEvent) : list NamespacedName :=
  if watchPredicate k e then enqueueRequestsFromMapFunc e else [].

(** ** The Background Sweeper *)

(** [time.Second], and the wrap-around of int64 arithmetic. *)
Definition Second : Z := 1000000000.

Definition wrap64 (z : Z) : Z := (z + 2 ^ 63) `mod` 2 ^ 64 - 2 ^ 63.

(** [time.Time.Sub]: the difference, saturated to the Duration range. *)
Definition timeSub (t u : Z) : Z :=
  Z.max (- 2 ^ 63) (Z.min (2 ^ 63 - 1) (t - u)).

(** [time.Since]. *)
Definition timeSince (t : Z) : M Z :=
  n ← timeNow; mret (timeSub n t).

(** [time.Duration(r.BackgroundCheckerSeconds/2) * time.Second]: Go's
    integer division truncates. *)
Definition skipThreshold : Z :=
  wrap64 ((BackgroundCheckerSeconds r ÷ 2) * Second).

Fixpoint forEach {A} (l : list A) (body : A → M unit) : M unit :=
  match l with
  | [] => mret tt
  | x :: l' => _ ← body x; forEach l' body
  end.

(** The body of [case <-ticker.C] in backgroundPeriodicalCheck. *)
Definition backgroundTick : M unit :=
  last ← lastServiceUpdateLoad;
  match last with
  | Some lastUpdate =>
      elapsed ← timeSince lastUpdate;
      if bool_decide (elapsed < skipThreshold)%Z
      then mret tt                                   (* continue *)
      else
        listed ← ListPolicies;
        match listed with
        | inl _ => mret tt                           (* continue *)
        | inr items =>
            forEach items (λ policy,
              _ ← UpdateOrCreateCiliumEgressGatewayPolicy policy;
              _ ← UpdateOrCreateService policy;
              mret tt)
        end
  | None =>
      t ← timeNow;
      lastServiceUpdateStore t                       (* continue *)
  end.

(** The clock moves between ticks. *)
Definition clockSet (t : Z) : M unit := λ w,
  (tt, mkWorld (store w) (faults w) (trace w) (events w) t (lastServiceUpdate w)).

(** backgroundPeriodicalCheck, over the ticks the ticker delivers before
    the context is done; each tick arrives at a clock reading. *)
Definition backgroundPeriodicalCheck (ticks : list Z) : M unit :=
  forEach ticks (λ t, _ ← clockSet t; backgroundTick).

End Controller.

(** ** Vocabulary of the statements *)

(** The names under which the reconciler looks its derived objects up. *)
Definition gatewayPolicyKey (K : Consts) (r : HAEgressGatewayPolicyReconciler)
  (ha : HAEgressGatewayPolicy) : NamespacedName :=
  (EmptyString, serviceNamespaceOf K r ha +:+ "-" +:+ Name (ha_meta ha)).

Definition serviceKey (K : Consts) (r : HAEgressGatewayPolicyReconciler)
  (ha : HAEgressGatewayPolicy) : NamespacedName :=
  (serviceNamespaceOf K r ha, Name (ha_meta ha)).

(** The GatewayPolicy the reconciler creates: the desired object with the
    controller reference to the Policy. *)
Definition ownedGatewayPolicy (K : Consts) (r : HAEgressGatewayPolicyReconciler)
  (ha : HAEgressGatewayPolicy) : CiliumEgressGatewayPolicy :=
  mkCEGP
    (withOwnerReferences [controllerRef ha]
       (gp_meta (ciliumEgressGatewayPolicyNew K r ha)))
    (ha_Spec ha).

Definition ownedService (K : Consts) (r : HAEgressGatewayPolicyReconciler)
  (ha : HAEgressGatewayPolicy) : Service :=
  mkService
    (withOwnerReferences [controllerRef ha] (svc_meta (serviceNew K r ha)))
    (svc_Spec (serviceNew K r ha)) (svc_Status (serviceNew K r ha)).



(** A derived object exists, is controlled by the Policy and carries the
    desired value of the field the reconciler compares. *)
Definition gatewayPolicyInSync (K : Consts) (r : HAEgressGatewayPolicyReconciler)
  (ha : HAEgressGatewayPolicy) (s : Cluster) : bool :=
  match gatewayPolicies s !! gatewayPolicyKey K r ha with
  | Some gp =>
      IsControlledBy (gp_meta gp) (ha_meta ha)
      && bool_decide (Selectors (gp_Spec gp) = Selectors (ha_Spec ha))
  | None => false
  end.

Definition serviceInSync (K : Consts) (r : HAEgressGatewayPolicyReconciler)
  (ha : HAEgressGatewayPolicy) (s : Cluster) : bool :=
  match services s !! serviceKey K r ha with
  | Some svc =>
      IsControlledBy (svc_meta svc) (ha_meta ha)
      && bool_decide (Selector (svc_Spec svc) = desiredSelector K r ha)
  | None => false
  end.

(** The calls of the three blocks of the Feedback Synchronizer. *)
Definition ownerCall (c : Call) : bool :=
  match c with GetPolicyCall _ => true | _ => false end.

Definition statusCall (c : Call) : bool :=
  match c with StatusUpdatePolicyCall _ => true | _ => false end.

Definition nodeCall (c : Call) : bool :=
  match c with
  | StatusUpdatePolicyCall _ | PatchGatewayPolicyCall _ _ _ => true
  | _ => false
  end.

(** The GatewayPolicy with the address set, as the synchronizer sends it. *)
Definition withAddress (ip : string) (gp : CiliumEgressGatewayPolicy)
  : CiliumEgressGatewayPolicy :=
  mkCEGP (gp_meta gp) (withEgressIP ip (gp_Spec gp)).

(** The calls the address block can make against the store [s], for the
    GatewayPolicy under [key] and the Service's first ingress address
    [ip], with what the block hands on: [inl] is returned from the
    function at once, [inr] falls through to the node block. *)
Inductive AddressOutcome (K : Consts) (s : Cluster) (key : NamespacedName)
  (ip : string)
  : list (Call * option Error) →
    Result * option Error + HAEgressGatewayPolicy → Prop :=
| refetch_failed err :
    AddressOutcome K s key ip
      [(GetGatewayPolicyCall key, Some err)]
      (inl (mkResult (HAEgressGatewayPolicyChcekRequeueAfter K), Some err))
| address_current fresh tail ha :
    gatewayPolicies s !! key = Some fresh →
    EgressIP (egressGateway (gp_Spec fresh)) = ip →
    Forall (λ ce, statusCall ce.1 = true) tail →
    AddressOutcome K s key ip
      ((GetGatewayPolicyCall key, None) :: tail) (inr ha)
| address_written fresh tail ha :
    gatewayPolicies s !! key = Some fresh →
    EgressIP (egressGateway (gp_Spec fresh)) ≠ ip →
    Forall (λ ce, statusCall ce.1 = true) tail →
    AddressOutcome K s key ip
      ((GetGatewayPolicyCall key, None)
       :: (UpdateGatewayPolicyCall (withAddress ip fresh), None) :: tail)
      (inr ha)
| write_failed fresh err :
    gatewayPolicies s !! key = Some fresh →
    EgressIP (egressGateway (gp_Spec fresh)) ≠ ip →
    AddressOutcome K s key ip
      [(GetGatewayPolicyCall key, None);
       (UpdateGatewayPolicyCall (withAddress ip fresh), Some err)]
      (inl (mkResult (HAEgressGatewayPolicyChcekRequeueAfter K), None)).

(** The GatewayPolicy under [key] keeps its metadata and its address. *)
Definition addressKept (key : NamespacedName) : relation Cluster := λ s s',
  ∀ g, gatewayPolicies s !! key = Some g →
    ∃ g', gatewayPolicies s' !! key = Some g' ∧ gp_meta g' = gp_meta g ∧
          EgressIP (egressGateway (gp_Spec g'))
          = EgressIP (egressGateway (gp_Spec g)).

(** ** Sample objects

    Concrete constants, a Policy [web] and the stores the statements are
    exercised on. *)
Module Sample.

(** The constants, and a server that refuses every patch other than the
    one-label document. *)
Definition K : Consts :=
  mkConsts "ns-key" "name-key" "proxy-name" "node-name" "vip-host"
    "EgressUpdate" 30000000000 5000000000 (λ _ _, inl (Transient 422)).

Definition r : HAEgressGatewayPolicyReconciler :=
  mkReconciler "egress-system" "kube-vip.io/kube-vip-class" 60.

Definition web : HAEgressGatewayPolicy :=
  mkHAPolicy (mkObjectMeta "web" "" "uid-web" ∅ ∅ [])
    (mkCEGPSpec [mkEgressRule None (Some (mkLabelSelector {["app" := "web"]}))]
       ["0.0.0.0/0"] []
       (mkEgressGateway (mkLabelSelector {["node-name" := ""]}) "" ""))
    (mkHAStatus "" "" 0).

Definition policyRef (name uid : string) : OwnerReference :=
  mkOwnerReference "HAEgressGatewayPolicy" name uid (Some true).

(** A watched object with two owner references of the kind. *)
Definition twoOwners : ObjectMeta :=
  mkObjectMeta "shared" "egress-system" "uid-shared" ∅ ∅
    [policyRef "a" "uid-a"; policyRef "b" "uid-b"].



Definition emptyWorld (s : Cluster) : World := mkWorld s [] [] [] 100 None.


(** The store after a first Reconcile of [web] from a store that holds
    only the Policy: both derived objects exist, owned and as desired. *)
Definition freshStore : Cluster := mkCluster {[ ("", "web") := web ]} ∅ ∅.

Definition syncedStore : Cluster :=
  store (Reconcile K r ("", "web") (emptyWorld freshStore)).2.

(** A sweep every 5 seconds, and a world whose last recorded activity is
    2.2 seconds old. *)
Definition r5 : HAEgressGatewayPolicyReconciler :=
  mkReconciler "egress-system" "kube-vip.io/kube-vip-class" 5.

Definition recentWorld : World :=
  mkWorld freshStore [] [] [] 2200000000 (Some 0%Z).

Definition syncedWorld : World := emptyWorld syncedStore.

(** The ProbeService of [web] once the allocator has answered, in a store
    where the GatewayPolicy is missing. *)
Definition probeService : Service :=
  mkService
    (mkObjectMeta "web" "egress-system" "uid-svc" ∅ {["vip-host" := "node-3"]}
       [policyRef "web" "uid-web"])
    (mkServiceSpec (Some "kube-vip.io/kube-vip-class")
       [mkServicePort "nope" "TCP" 65534] "LoadBalancer"
       {["ns-key" := "egress-system"; "name-key" := "web"]})
    (mkServiceStatus [mkIngress "10.0.0.5"]).


(** A Service of [web], owned by it, whose selector was edited and which
    carries a label and a port of its own. *)
Definition driftedService : Service :=
  mkService
    (mkObjectMeta "web" "egress-system" "uid-svc" {["team" := "net"]} ∅
       [policyRef "web" "uid-web"])
    (mkServiceSpec (Some "kube-vip.io/kube-vip-class")
       [mkServicePort "http" "TCP" 80] "LoadBalancer" {["app" := "web"]})
    (mkServiceStatus [mkIngress "10.0.0.5"]).

Definition driftedStore : Cluster :=
  mkCluster {[ ("", "web") := web ]} ∅ {[ ("egress-system", "web") := driftedService ]}.

(** The scenario of a Policy [web]: a first Reconcile on [freshStore];
    the allocator then gives the Service the address 10.0.0.5 and names
    node-3 as its holder; the synchronizer runs, and runs again. *)
Definition allocated (s : Cluster) : Cluster :=
  mkCluster (policies s) (gatewayPolicies s)
    (alter (λ svc,
              mkService
                (mkObjectMeta (Name (svc_meta svc)) (Namespace (svc_meta svc))
                   (UID (svc_meta svc)) (Labels (svc_meta svc))
                   (<["vip-host" := "node-3"]> (Annotations (svc_meta svc)))
                   (OwnerReferences (svc_meta svc)))
                (svc_Spec svc) (mkServiceStatus [mkIngress "10.0.0.5"]))
       ("egress-system", "web") (services s)).

Definition allocatedWorld : World :=
  mkWorld (allocated syncedStore) [] [] [] 200 None.

Definition synchronize (w : World) : Result * option Error * World :=
  match services (store w) !! ("egress-system", "web"),
        gatewayPolicies (store w) !! ("", "egress-system-web") with
  | Some svc, Some gp => SyncServiceWithCiliumEgressGatewayPolicy K svc gp w
  | _, _ => (mkResult 0, None, w)
  end.

End Sample.

(** ** Vocabulary of the further statements *)

(** The Policies of two stores agree up to their status: the same names,
    and under each name the same metadata and the same spec. *)
Definition policyFrame : relation Cluster := λ s s',
  ∀ k, match policies s !! k, policies s' !! k with
       | Some p, Some p' => ha_meta p' = ha_meta p ∧ ha_Spec p' = ha_Spec p
       | None, None => True
       | _, _ => False
       end.

(** Two GatewayPolicies that differ at most in the address and in the
    labels of the node selector. *)
Definition sameShape (g g' : CiliumEgressGatewayPolicy) : Prop :=
  gp_meta g' = gp_meta g ∧
  Selectors (gp_Spec g') = Selectors (gp_Spec g) ∧
  DestinationCIDRs (gp_Spec g') = DestinationCIDRs (gp_Spec g) ∧
  ExcludedCIDRs (gp_Spec g') = ExcludedCIDRs (gp_Spec g) ∧
  Interface (egressGateway (gp_Spec g')) = Interface (egressGateway (gp_Spec g)).

(** The GatewayPolicies of two stores: the same names, each of the same
    shape; and the same Services. *)
Definition shapeKept : relation Cluster := λ s s',
  services s' = services s ∧
  ∀ k, match gatewayPolicies s !! k, gatewayPolicies s' !! k with
       | Some g, Some g' => sameShape g g'
       | None, None => True
       | _, _ => False
       end.

(** A run that leaves the clock and the activity marker alone. *)
Definition KeepsClock {A} (m : M A) : Prop :=
  ∀ w, now (m w).2 = now w ∧ lastServiceUpdate (m w).2 = lastServiceUpdate w.

(** A successful node-selector patch. *)
Definition patched (ce : Call * option Error) : bool :=
  match ce with
  | (PatchGatewayPolicyCall _ _ _, None) => true
  | _ => false
  end.

Definition isPatch (c : Call) : bool :=
  match c with PatchGatewayPolicyCall _ _ _ => true | _ => false end.

(** More events of the reconciler and the pair the synchronizer records. *)
Definition gatewayPolicyUpdatedEvent (ha : HAEgressGatewayPolicy) (name : string)
  : Event :=
  mkEvent PolicyKind (Namespace (ha_meta ha), Name (ha_meta ha))
    "Normal" "Updated"
    ("CiliumEgressGatewayPolicy " +:+ quoted name +:+ " updated").

Definition serviceCreatedEvent (K : Consts) (r : HAEgressGatewayPolicyReconciler)
  (ha : HAEgressGatewayPolicy) : Event :=
  mkEvent PolicyKind (Namespace (ha_meta ha), Name (ha_meta ha))
    "Normal" "Created"
    ("Service " +:+ serviceNamespaceOf K r ha +:+ "/" +:+ Name (ha_meta ha)
     +:+ " created").

Definition currentHostOf (K : Consts) (service : Service) : string :=
  mapIndex (Annotations (svc_meta service)) (KubeVIPVipHostAnnotation K).

Definition policyHostOf (K : Consts) (cegp : CiliumEgressGatewayPolicy) : string :=
  mapIndex (MatchLabels (NodeSelector (egressGateway (gp_Spec cegp))))
    (NodeNameAnnotation K).

Definition nodeEvents (K : Consts) (service : Service)
  (cegp : CiliumEgressGatewayPolicy) : list Event :=
  [mkEvent GatewayPolicyKind (Namespace (gp_meta cegp), Name (gp_meta cegp))
     "Normal" (EventEgressUpdateReason K)
     ("Updated with new nodeSelector " +:+ NodeNameAnnotation K
      +:+ "=" +:+ currentHostOf K service +:+ " by "
      +:+ Namespace (svc_meta service) +:+ "/"
      +:+ Name (svc_meta service) +:+ " service");
   mkEvent ServiceKind (Namespace (svc_meta service), Name (svc_meta service))
     "Normal" (EventEgressUpdateReason K)
     ("Updated CiliumEgressGatewayPolicy " +:+ Name (gp_meta cegp)
      +:+ " with new nodeSelector " +:+ NodeNameAnnotation K
      +:+ "=" +:+ currentHostOf K service)].

(** The body of the sweep loop for one Policy. *)
Definition sweepOne (K : Consts) (r : HAEgressGatewayPolicyReconciler)
  (policy : HAEgressGatewayPolicy) : M unit :=
  _ ← UpdateOrCreateCiliumEgressGatewayPolicy K r policy;
  _ ← UpdateOrCreateService K r policy;
  mret tt.

(** ** More sample objects *)
Module Cases.

(** The GatewayPolicy of [Sample.web], owned by it, with an address set by
    the synchronizer and selectors that were edited. *)
Definition driftedGatewayPolicy : CiliumEgressGatewayPolicy :=
  mkCEGP
    (mkObjectMeta "egress-system-web" "" "uid-gp" ∅ ∅
       [Sample.policyRef "web" "uid-web"])
    (mkCEGPSpec [] ["10.0.0.0/8"] []
       (mkEgressGateway (mkLabelSelector {["node-name" := "node-3"]}) ""
          "10.0.0.5")).

Definition driftedGatewayPolicyStore : Cluster :=
  mkCluster {[ ("", "web") := Sample.web ]}
    {[ ("", "egress-system-web") := driftedGatewayPolicy ]} ∅.

(** A Service of [Sample.web] the allocator has not answered yet. *)
Definition pendingService : Service :=
  mkService
    (mkObjectMeta "web" "egress-system" "uid-svc" ∅ ∅
       [Sample.policyRef "web" "uid-web"])
    (mkServiceSpec (Some "kube-vip.io/kube-vip-class")
       [mkServicePort "nope" "TCP" 65534] "LoadBalancer"
       {["ns-key" := "egress-system"; "name-key" := "web"]})
    (mkServiceStatus []).

(** The world after the scenario of [Sample.web] has converged. *)
Definition convergedWorld : World :=
  mkWorld (store (Sample.synchronize Sample.allocatedWorld).2) [] [] [] 300
    (Some 200%Z).

(** The cluster of [Sample.web] at rest, a minute after the last recorded
    activity. *)
Definition staleWorld : World :=
  mkWorld Sample.syncedStore [] [] [] 60000000000 (Some 0%Z).

(** Two Policies whose target namespace and name differ and whose
    GatewayPolicy names meet. *)
Definition policyIn (K : Consts) (ns name : string) : HAEgressGatewayPolicy :=
  mkHAPolicy
    (mkObjectMeta name "" "" ∅ {[HAEgressGatewayPolicyNamespace K := ns]} [])
    (ha_Spec emptyPolicy) (ha_Status emptyPolicy).

End Cases.

(** ** Reasoning about runs *)

(** [wp m w Q]: running [m] from [w] ends with a result and a world that
    satisfy [Q].  Every run ends: [M] is a total function. *)
Definition wp {A} (m : M A) (w : World) (Q : A → World → Prop) : Prop :=
  Q (m w).1 (m w).2.

(** The world after a store call consumed its fault and was logged. *)
Definition called (c : Call) (e : option Error) (w : World) : World :=
  mkWorld (store w) (tl (faults w)) (trace w ++ [(c, e)]) (events w) (now w)
    (lastServiceUpdate w).

Definition getResult {A} (f : option nat) (o : option A) : Error + A :=
  match f with
  | Some code => inl (Transient code)
  | None => match o with None => inl NotFound | Some x => inr x end
  end.

Definition listResult (f : option nat) (s : Cluster)
  : Error + list HAEgressGatewayPolicy :=
  match f with
  | Some code => inl (Transient code)
  | None => inr ((map_to_list (policies s)).*2)
  end.

Definition writeResult (f : option nat) (r : Error + Cluster) : Error + Cluster :=
  match f with
  | Some code => inl (Transient code)
  | None => r
  end.

Definition wrote (c : Call) (r : Error + Cluster) (w : World) : World :=
  mkWorld (match r with inr s' => s' | inl _ => store w end) (tl (faults w))
    (trace w ++ [(c, errorOf r)]) (events w) (now w) (lastServiceUpdate w).

(** [Keeps Rs P m]: whatever the world, a run of [m] relates the store
    before and after by [Rs], makes only calls that satisfy [P], and only
    adds to the recorded events. *)
Definition Keeps {A} (Rs : relation Cluster) (P : Call → Prop) (m : M A) : Prop :=
  ∀ w, Rs (store w) (store (m w).2) ∧
       (∃ cs, trace (m w).2 = trace w ++ cs ∧ Forall (λ ce, P ce.1) cs) ∧
       (∃ evs, events (m w).2 = events w ++ evs).

(** The calls a run added to the trace are reads. *)
Definition readsOnly (cs : list (Call * option Error)) : Prop :=
  Forall (λ ce, isWrite ce.1 = false) cs.

Section RunLemmas.

Context {A B : Type}.
Implicit Types (w : World) (Q : A → World → Prop).

Lemma wp_run (m : M A) w Q a w' : wp m w Q → m w = (a, w') → Q a w'.
Proof. unfold wp. intros H E. by rewrite E in H. Qed.

Lemma wp_ret (a : A) w Q : Q a w → wp (mret a) w Q.
Proof. done. Qed.

Lemma wp_bind (m : M A) (f : A → M B) w (Q : B → World → Prop) :
  wp m w (λ a w1, wp (f a) w1 Q) → wp (m ≫= f) w Q.
Proof.
  unfold wp, mbind, M_bind. by destruct (m w).
Qed.


Lemma wp_mono (m : M A) w (Q Q' : A → World → Prop) :
  wp m w Q → (∀ a w1, Q a w1 → Q' a w1) → wp m w Q'.
Proof. unfold wp. auto. Qed.

End RunLemmas.

Lemma wp_storeGet {A} (c : Call) (sel : Cluster → gmap NamespacedName A)
  (key : NamespacedName) w (Q : Error + A → World → Prop) :
  Q (getResult (hd None (faults w)) (sel (store w) !! key))
    (called c (errorOf (getResult (hd None (faults w)) (sel (store w) !! key))) w) →
  wp (storeGet c sel key) w Q.
Proof. done. Qed.

Lemma wp_storeWrite (c : Call) (upd : Cluster → Error + Cluster) w
  (Q : option Error → World → Prop) :
  Q (errorOf (writeResult (hd None (faults w)) (upd (store w))))
    (wrote c (writeResult (hd None (faults w)) (upd (store w))) w) →
  wp (storeWrite c upd) w Q.
Proof.
  intros H. exact H.
Qed.

Lemma wp_popFault w (Q : option nat → World → Prop) :
  Q (hd None (faults w)) (popFault w).2 → wp popFault w Q.
Proof. done. Qed.

Lemma wp_SetControllerReference owner m w (Q : Error + ObjectMeta → World → Prop) :
  Q (match hd None (faults w) with
     | Some code => inl (Transient code)
     | None => setControllerReference owner m
     end) (popFault w).2 →
  wp (SetControllerReference owner m) w Q.
Proof. done. Qed.

Lemma wp_timeNow w (Q : Z → World → Prop) : Q (now w) w → wp timeNow w Q.
Proof. done. Qed.

Lemma wp_lastServiceUpdateStore t w (Q : unit → World → Prop) :
  Q tt (lastServiceUpdateStore t w).2 → wp (lastServiceUpdateStore t) w Q.
Proof. done. Qed.

Lemma wp_lastServiceUpdateLoad w (Q : option Z → World → Prop) :
  Q (lastServiceUpdate w) w → wp lastServiceUpdateLoad w Q.
Proof. done. Qed.

Lemma wp_RecorderEvent k m ty reason msg w (Q : unit → World → Prop) :
  Q tt (RecorderEvent k m ty reason msg w).2 →
  wp (RecorderEvent k m ty reason msg) w Q.
Proof. done. Qed.

Lemma wp_clockSet t w (Q : unit → World → Prop) :
  Q tt (clockSet t w).2 → wp (clockSet t) w Q.
Proof. done. Qed.

Lemma wp_ListPolicies w (Q : Error + list HAEgressGatewayPolicy → World → Prop) :
  Q (listResult (hd None (faults w)) (store w))
    (called ListPoliciesCall
       (errorOf (listResult (hd None (faults w)) (store w))) w) →
  wp ListPolicies w Q.
Proof. done. Qed.

(** The two uses of SetControllerReference in the reconciler: on a fresh
    object, and again on the object that already carries the reference. *)
Lemma setControllerReference_fresh owner n ns u l a :
  setControllerReference owner (mkObjectMeta n ns u l a []) =
  inr (mkObjectMeta n ns u l a [controllerRef owner]).
Proof. reflexivity. Qed.

Lemma referSameObject_refl ref : referSameObject ref ref = true.
Proof. unfold referSameObject. by rewrite !bool_decide_eq_true_2. Qed.

Lemma setControllerReference_again owner n ns u l a :
  setControllerReference owner (mkObjectMeta n ns u l a [controllerRef owner]) =
  inr (mkObjectMeta n ns u l a [controllerRef owner]).
Proof.
  unfold setControllerReference, GetControllerOf. cbn.
  by rewrite referSameObject_refl.
Qed.

Lemma IsControlledBy_controllerRef owner n ns u l a :
  IsControlledBy (mkObjectMeta n ns u l a [controllerRef owner]) (ha_meta owner)
  = true.
Proof. unfold IsControlledBy, GetControllerOf. cbn. by apply bool_decide_eq_true_2. Qed.

(** Drilling down to the term a stuck [match] waits for. *)
Ltac destruct_scrutinee x :=
  lazymatch x with
  | context [match ?y with _ => _ end] => destruct_scrutinee y
  | _ =>
      first
        [ match goal with
          | H : ?y = _ |- _ => lazymatch x with context [y] => rewrite H end
          end
        | let E := fresh "E" in destruct x eqn:E ]
  end.

Ltac world_simpl :=
  cbn beta iota zeta delta
    [called wrote popFault lastServiceUpdateStore RecorderEvent clockSet
     store faults trace events now lastServiceUpdate fst snd
     getResult writeResult errorOf IsNotFound negb keyOf
     ciliumEgressGatewayPolicyNew serviceNew
     gp_meta gp_Spec svc_meta svc_Spec svc_Status
     Name Namespace UID Labels Annotations OwnerReferences
     Selectors egressGateway EgressIP Selector Ingress IP hd tl
     policies gatewayPolicies services];
  unfold keyOf;
  cbn beta iota zeta delta
    [gp_meta gp_Spec svc_meta svc_Spec svc_Status
     Name Namespace UID Labels Annotations OwnerReferences];
  rewrite ?setControllerReference_fresh, ?setControllerReference_again.

Tactic Notation "world_simpl" "in" hyp(H) :=
  cbn beta iota zeta delta
    [called wrote popFault lastServiceUpdateStore RecorderEvent clockSet
     store faults trace events now lastServiceUpdate fst snd
     getResult writeResult errorOf IsNotFound negb keyOf
     ciliumEgressGatewayPolicyNew serviceNew
     gp_meta gp_Spec svc_meta svc_Spec svc_Status
     Name Namespace UID Labels Annotations OwnerReferences
     Selectors egressGateway EgressIP Selector Ingress IP hd tl
     policies gatewayPolicies services] in H.

(** One step of symbolic execution of a goal [wp m w Q]. *)
Ltac wp_step :=
  lazymatch goal with
  | |- wp (mbind _ _) _ _ => apply wp_bind
  | |- wp (mret _) _ _ => apply wp_ret
  | |- wp timeNow _ _ => apply wp_timeNow
  | |- wp (lastServiceUpdateStore _) _ _ => apply wp_lastServiceUpdateStore
  | |- wp lastServiceUpdateLoad _ _ => apply wp_lastServiceUpdateLoad
  | |- wp (RecorderEvent _ _ _ _ _) _ _ => apply wp_RecorderEvent
  | |- wp (clockSet _) _ _ => apply wp_clockSet
  | |- wp (SetControllerReference _ _) _ _ => apply wp_SetControllerReference
  | |- wp ListPolicies _ _ => apply wp_ListPolicies
  | |- wp (timeSince _) _ _ => unfold timeSince
  | |- wp (GetPolicy _) _ _ => apply wp_storeGet
  | |- wp (GetGatewayPolicy _) _ _ => apply wp_storeGet
  | |- wp (GetService _) _ _ => apply wp_storeGet
  | |- wp (CreateGatewayPolicy _) _ _ => apply wp_storeWrite
  | |- wp (CreateService _) _ _ => apply wp_storeWrite
  | |- wp (UpdateGatewayPolicy _) _ _ => apply wp_storeWrite
  | |- wp (UpdateService _) _ _ => apply wp_storeWrite
  | |- wp (StatusUpdatePolicy _) _ _ => apply wp_storeWrite
  | |- wp (PatchGatewayPolicy _ _ _ _) _ _ => apply wp_storeWrite
  | |- wp (match ?x with _ => _ end) _ _ =>
      first [ progress (unfold getResult, writeResult, listResult, errorOf)
            | destruct_scrutinee x ]
  end; world_simpl.

Ltac wp_steps := repeat wp_step.

(** *** What every run keeps *)

Section KeepsLemmas.

Context (Rs : relation Cluster) `{!PreOrder Rs} (P : Call → Prop).

Lemma Keeps_ret {A} (a : A) : Keeps Rs P (mret a).
Proof.
  intros w. split; [reflexivity|]. split; exists []; by rewrite app_nil_r.
Qed.

Lemma Keeps_bind {A B} (m : M A) (f : A → M B) :
  Keeps Rs P m → (∀ a, Keeps Rs P (f a)) → Keeps Rs P (m ≫= f).
Proof.
  intros Hm Hf w. unfold mbind, M_bind.
  destruct (Hm w) as (Hs & (cs & Ht & Hcs) & (evs & Hev)).
  destruct (m w) as [a w1]; cbn in *.
  destruct (Hf a w1) as (Hs' & (cs' & Ht' & Hcs') & (evs' & Hev')).
  split; [by etrans|]. split.
  - exists (cs ++ cs'). rewrite Ht', Ht, app_assoc. split; [done|].
    by apply Forall_app.
  - exists (evs ++ evs'). by rewrite Hev', Hev, app_assoc.
Qed.

(** A computation that touches neither the store, the trace nor the events. *)
Lemma Keeps_silent {A} (m : M A) :
  (∀ w, store (m w).2 = store w ∧ trace (m w).2 = trace w
        ∧ events (m w).2 = events w) →
  Keeps Rs P m.
Proof.
  intros H w. destruct (H w) as (-> & -> & ->). split; [reflexivity|].
  split; exists []; by rewrite app_nil_r.
Qed.

Lemma Keeps_RecorderEvent k m ty reason msg :
  Keeps Rs P (RecorderEvent k m ty reason msg).
Proof.
  intros w. split; [reflexivity|]. split.
  - exists []. by rewrite app_nil_r.
  - by eexists [_].
Qed.

Lemma Keeps_storeGet {A} (c : Call) (sel : Cluster → gmap NamespacedName A)
  (key : NamespacedName) :
  P c → Keeps Rs P (storeGet c sel key).
Proof.
  intros Hc w. split; [reflexivity|]. split.
  - eexists [_]. split; [reflexivity|]. by constructor.
  - exists []. by rewrite app_nil_r.
Qed.

Lemma Keeps_ListPolicies : P ListPoliciesCall → Keeps Rs P ListPolicies.
Proof.
  intros Hc w. split; [reflexivity|]. split.
  - eexists [_]. split; [reflexivity|]. by constructor.
  - exists []. by rewrite app_nil_r.
Qed.

Lemma Keeps_storeWrite (c : Call) (upd : Cluster → Error + Cluster) :
  P c → (∀ s s', upd s = inr s' → Rs s s') → Keeps Rs P (storeWrite c upd).
Proof.
  intros Hc Hupd w.
  change (storeWrite c upd w)
    with (errorOf (writeResult (hd None (faults w)) (upd (store w))),
          wrote c (writeResult (hd None (faults w)) (upd (store w))) w).
  split; [|split].
  - cbn [snd wrote store]. unfold writeResult.
    destruct (hd None (faults w)); [reflexivity|].
    destruct (upd (store w)) eqn:E; [reflexivity|]. by apply Hupd.
  - eexists [_]. split; [reflexivity|]. by constructor.
  - exists []. by rewrite app_nil_r.
Qed.

Lemma Keeps_forEach {A} (l : list A) (body : A → M unit) :
  (∀ x, Keeps Rs P (body x)) → Keeps Rs P (forEach l body).
Proof.
  intros Hb. induction l as [|x l IH]; cbn [forEach].
  - apply Keeps_ret.
  - apply Keeps_bind; [apply Hb | intros _; apply IH].
Qed.

Lemma Keeps_wp {A} (m : M A) w :
  Keeps Rs P m →
  wp m w (λ _ w', Rs (store w) (store w') ∧
                  (∃ cs, trace w' = trace w ++ cs ∧ Forall (λ ce, P ce.1) cs) ∧
                  (∃ evs, events w' = events w ++ evs)).
Proof. intros H. apply H. Qed.

End KeepsLemmas.

Lemma Keeps_weaken {A} (Rs Rs' : relation Cluster) (P P' : Call → Prop) (m : M A) :
  Keeps Rs P m →
  (∀ s s', Rs s s' → Rs' s s') → (∀ c, P c → P' c) → Keeps Rs' P' m.
Proof.
  intros H HR HP w. destruct (H w) as (Hs & (cs & Ht & Hcs) & Hev).
  split; [by apply HR|]. split; [|done]. exists cs. split; [done|].
  eapply Forall_impl; [exact Hcs|]. intros ce. apply HP.
Qed.

(** Relations on the store that runs are shown to keep. *)
Definition sameOn {X} (f : Cluster → X) : relation Cluster := λ s s', f s' = f s.

Definition anyStore : relation Cluster := λ _ _, True.

#[global] Instance sameOn_preorder {X} (f : Cluster → X) : PreOrder (sameOn f).
Proof. split; unfold sameOn; [by intros ?|]. intros x y z H1 H2. congruence. Qed.

#[global] Instance anyStore_preorder : PreOrder anyStore.
Proof. by split. Qed.

(** One step of a proof of [Keeps Rs P m]; [side] solves what the calls ask. *)
Ltac keeps_step side :=
  lazymatch goal with
  | |- Keeps _ _ (mbind _ _) => apply Keeps_bind; [apply _| |intros ?]
  | |- Keeps _ _ (mret _) => apply Keeps_ret; apply _
  | |- Keeps _ _ timeNow => apply Keeps_silent; [apply _|done]
  | |- Keeps _ _ popFault => apply Keeps_silent; [apply _|done]
  | |- Keeps _ _ (lastServiceUpdateStore _) => apply Keeps_silent; [apply _|done]
  | |- Keeps _ _ lastServiceUpdateLoad => apply Keeps_silent; [apply _|done]
  | |- Keeps _ _ (RecorderEvent _ _ _ _ _) => apply Keeps_RecorderEvent; apply _
  | |- Keeps _ _ (clockSet _) => apply Keeps_silent; [apply _|done]
  | |- Keeps _ _ (SetControllerReference _ _) =>
      apply Keeps_silent; [apply _|done]
  | |- Keeps _ _ (GetPolicy _) => apply Keeps_storeGet; [apply _|side]
  | |- Keeps _ _ (GetGatewayPolicy _) => apply Keeps_storeGet; [apply _|side]
  | |- Keeps _ _ (GetService _) => apply Keeps_storeGet; [apply _|side]
  | |- Keeps _ _ ListPolicies => apply Keeps_ListPolicies; [apply _|side]
  | |- Keeps _ _ (CreateGatewayPolicy _) => apply Keeps_storeWrite; [apply _|side|side]
  | |- Keeps _ _ (CreateService _) => apply Keeps_storeWrite; [apply _|side|side]
  | |- Keeps _ _ (UpdateGatewayPolicy _) => apply Keeps_storeWrite; [apply _|side|side]
  | |- Keeps _ _ (UpdateService _) => apply Keeps_storeWrite; [apply _|side|side]
  | |- Keeps _ _ (StatusUpdatePolicy _) => apply Keeps_storeWrite; [apply _|side|side]
  | |- Keeps _ _ (PatchGatewayPolicy _ _ _ _) =>
      apply Keeps_storeWrite; [apply _|side|side]
  | |- Keeps _ _ (forEach _ _) => apply Keeps_forEach; [apply _|intros ?]
  | |- Keeps _ _ (match ?x with _ => _ end) => destruct x eqn:?
  end.

(** What a successful write of each kind leaves alone. *)
Ltac write_frame :=
  try done;
  intros ? ? ?; repeat case_match; simplify_eq; done.

(** Closing the goals symbolic execution leaves: the calls a run added. *)
Ltac trace_ex :=
  first [ exists []; split; [by rewrite app_nil_r|]
        | eexists; split; [by rewrite <- ?app_assoc|] ].

Ltac elem_cases H :=
  repeat (apply elem_of_cons in H as [H|H]);
  try (by apply elem_of_nil in H); simplify_eq.

(** *** The patch document *)

Lemma append_cons a (p s : string) : String a p +:+ s = String a (p +:+ s).
Proof. reflexivity. Qed.

Lemma stripPrefix_app p s : stripPrefix p (p +:+ s) = Some s.
Proof.
  induction p as [|a p IH]; [done|].
  rewrite append_cons. cbn [stripPrefix]. by rewrite Ascii.eqb_refl.
Qed.

Lemma readPlain_app t c rest :
  plainText t = true → plainChar c = false →
  readPlain (t +:+ String c rest) = (t, String c rest).
Proof.
  intros Ht Hc. induction t as [|x t IH].
  - change (EmptyString +:+ String c rest) with (String c rest).
    cbn [readPlain]. by rewrite Hc.
  - rewrite append_cons. cbn [readPlain].
    cbn in Ht. apply andb_true_iff in Ht as [Hx Ht]. by rewrite Hx, IH.
Qed.

Lemma readPlain_dquote t rest :
  plainText t = true → readPlain (t +:+ dquote +:+ rest) = (t, dquote +:+ rest).
Proof. intros Ht. by apply readPlain_app. Qed.

Lemma singleLabelPatch_patchData label value :
  plainText label = true → plainText value = true →
  singleLabelPatch (patchData label value) = Some (label, value).
Proof.
  intros Hl Hv. unfold singleLabelPatch, patchData.
  rewrite stripPrefix_app. cbn [mbind option_bind].
  rewrite stripPrefix_app. cbn [mbind option_bind].
  rewrite readPlain_dquote by done.
  rewrite stripPrefix_app. cbn [mbind option_bind].
  rewrite stripPrefix_app. cbn [mbind option_bind].
  rewrite stripPrefix_app. cbn [mbind option_bind].
  rewrite readPlain_dquote by done.
  by rewrite bool_decide_eq_true_2.
Qed.


Lemma stripPrefix_Some p s rest : stripPrefix p s = Some rest → s = p +:+ rest.
Proof.
  revert s. induction p as [|a p IH]; intros s; cbn [stripPrefix].
  - by intros [= ->].
  - destruct s as [|b s]; [done|].
    destruct (Ascii.eqb a b) eqn:E; [|done].
    apply Ascii.eqb_eq in E as ->. intros ->%IH. by rewrite append_cons.
Qed.

Lemma readPlain_Some s t rest :
  readPlain s = (t, rest) → s = t +:+ rest ∧ plainText t = true.
Proof.
  revert t. induction s as [|c s IH]; intros t; cbn [readPlain].
  - by intros [= <- <-].
  - destruct (plainChar c) eqn:Hc; [|by intros [= <- <-]].
    destruct (readPlain s) as [t' rest'] eqn:E. intros [= <- <-].
    destruct (IH t' eq_refl) as [-> Ht]. split; [done|].
    cbn [plainText]. by rewrite Hc, Ht.
Qed.

Lemma singleLabelPatch_Some doc label value :
  singleLabelPatch doc = Some (label, value) →
  doc = patchData label value ∧
  plainText label = true ∧ plainText value = true.
Proof.
  unfold singleLabelPatch, patchData.
  destruct (stripPrefix patchOpen doc) as [s1|] eqn:E1; [|done].
  cbn [mbind option_bind].
  destruct (stripPrefix dquote s1) as [s2|] eqn:E2; [|done].
  cbn [mbind option_bind].
  destruct (readPlain s2) as [l s3] eqn:E3.
  destruct (stripPrefix dquote s3) as [s4|] eqn:E4; [|done].
  cbn [mbind option_bind].
  destruct (stripPrefix ":" s4) as [s5|] eqn:E5; [|done].
  cbn [mbind option_bind].
  destruct (stripPrefix dquote s5) as [s6|] eqn:E6; [|done].
  cbn [mbind option_bind].
  destruct (readPlain s6) as [v s7] eqn:E7.
  case_bool_decide as E8; [|done]. intros [= <- <-].
  apply stripPrefix_Some in E1, E2, E4, E5, E6.
  apply readPlain_Some in E3 as [E3 Hl], E7 as [E7 Hv].
  split; [|done]. congruence.
Qed.

(** With a label and a value of plain bytes the patch sets that label. *)
Lemma mergePatch_plain K label value old :
  plainText label = true → plainText value = true →
  mergePatch K (patchData label value) old
  = inr (mkCEGP (gp_meta old) (withNodeLabel label value (gp_Spec old))).
Proof.
  intros Hl Hv. unfold mergePatch. by rewrite singleLabelPatch_patchData.
Qed.

(** *** Frames: what each function never writes *)

Lemma Sync_keeps_services K service cegp :
  Keeps (sameOn services) (λ _, True)
    (SyncServiceWithCiliumEgressGatewayPolicy K service cegp).
Proof.
  unfold SyncServiceWithCiliumEgressGatewayPolicy, syncFetchOwner, syncAddress,
    syncNode.
  repeat keeps_step write_frame.
Qed.

Lemma UpdateOrCreateCiliumEgressGatewayPolicy_keeps_services K r ha :
  Keeps (sameOn services) (λ _, True)
    (UpdateOrCreateCiliumEgressGatewayPolicy K r ha).
Proof.
  unfold UpdateOrCreateCiliumEgressGatewayPolicy.
  repeat first [ apply Sync_keeps_services | keeps_step write_frame ].
Qed.

Lemma UpdateOrCreateService_keeps_gatewayPolicies K r ha :
  Keeps (sameOn gatewayPolicies) (λ _, True) (UpdateOrCreateService K r ha).
Proof.
  unfold UpdateOrCreateService.
  repeat keeps_step write_frame.
Qed.

(** *** A foreign derived object stops its step *)




(** *** A derived object in the desired state makes its step a no-op *)

Lemma inSync_gatewayPolicy_step K r ha w :
  gatewayPolicyInSync K r ha (store w) = true →
  wp (UpdateOrCreateCiliumEgressGatewayPolicy K r ha) w (λ _ w',
    store w' = store w ∧ events w' = events w ∧
    ∃ cs, trace w' = trace w ++ cs ∧ readsOnly cs).
Proof.
  unfold gatewayPolicyInSync, gatewayPolicyKey.
  destruct (gatewayPolicies _ !! _) as [gp|] eqn:Hgp; [|done].
  intros [Hown Hsel%bool_decide_eq_true]%andb_true_iff.
  assert (bool_decide (Selectors (gp_Spec gp) ≠ Selectors (ha_Spec ha)) = false)
    as Hne by (by apply bool_decide_eq_false_2; intros []).
  clear Hsel.
  unfold UpdateOrCreateCiliumEgressGatewayPolicy.
  wp_steps.
  all: (split; [reflexivity|]); (split; [reflexivity|]); trace_ex.
  all: by repeat constructor.
Qed.

Lemma inSync_service_step K r ha w :
  serviceInSync K r ha (store w) = true →
  wp (UpdateOrCreateService K r ha) w (λ _ w',
    store w' = store w ∧ events w' = events w ∧
    ∃ cs, trace w' = trace w ++ cs ∧ readsOnly cs).
Proof.
  unfold serviceInSync, serviceKey.
  destruct (services _ !! _) as [svc|] eqn:Hsvc; [|done].
  intros [Hown Hsel%bool_decide_eq_true]%andb_true_iff.
  assert (bool_decide (Selector (svc_Spec svc) ≠ desiredSelector K r ha) = false)
    as Hne by (by apply bool_decide_eq_false_2; intros []).
  clear Hsel.
  unfold UpdateOrCreateService.
  wp_steps.
  all: (split; [reflexivity|]); (split; [reflexivity|]); trace_ex.
  all: by repeat constructor.
Qed.

Lemma readsOnly_app cs1 cs2 : readsOnly cs1 → readsOnly cs2 → readsOnly (cs1 ++ cs2).
Proof. unfold readsOnly. intros. by apply Forall_app. Qed.

Lemma inSync_Reconcile K r req ha w :
  policies (store w) !! req = Some ha →
  gatewayPolicyInSync K r ha (store w) = true →
  serviceInSync K r ha (store w) = true →
  wp (Reconcile K r req) w (λ _ w',
    store w' = store w ∧ events w' = events w ∧
    ∃ cs, trace w' = trace w ++ cs ∧ readsOnly cs).
Proof.
  intros Hpol Hgp Hsvc. unfold Reconcile. wp_steps.
  { do 2 (split; [reflexivity|]). trace_ex. by repeat constructor. }
  eapply wp_mono; [by apply inSync_gatewayPolicy_step|].
  intros e1 w1 (Hs1 & He1 & cs1 & Ht1 & Hr1); cbn beta. cbn in Hs1, He1, Ht1.
  wp_steps.
  { do 2 (split; [done|]). eexists. split; [by rewrite Ht1, <- app_assoc|].
    apply readsOnly_app; [by repeat constructor|done]. }
  eapply wp_mono; [apply inSync_service_step; by rewrite Hs1|].
  intros e2 w2 (Hs2 & He2 & cs2 & Ht2 & Hr2); cbn beta.
  assert (∃ cs, trace w2 = trace w ++ cs ∧ readsOnly cs) as Hcs.
  { eexists. split; [by rewrite Ht2, Ht1, <- !app_assoc|].
    repeat apply readsOnly_app; [by repeat constructor|done|done]. }
  wp_steps; (split; [congruence|]); (split; [congruence|done]).
Qed.

(** C1 (idempotence): when both derived objects exist, are controlled by
    the Policy and match the desired state, a Reconcile of the Policy run
    right after a first one makes no create, update or patch call (its
    calls are reads), and leaves the store as the first run left it. *)
Theorem reconcile_idempotent K r req ha w res1 w1 res2 w2 :
  policies (store w) !! req = Some ha →
  gatewayPolicyInSync K r ha (store w) = true →
  serviceInSync K r ha (store w) = true →
  Reconcile K r req w = (res1, w1) →
  Reconcile K r req w1 = (res2, w2) →
  store w2 = store w1 ∧
  ∃ cs, trace w2 = trace w1 ++ cs ∧ readsOnly cs.
Proof.
  intros Hpol Hgp Hsvc Hrun1 Hrun2.
  pose proof (wp_run _ _ _ _ _ (inSync_Reconcile K r req ha w Hpol Hgp Hsvc) Hrun1)
    as (Hs1 & _ & _).
  rewrite <- Hs1 in Hpol, Hgp, Hsvc.
  pose proof (wp_run _ _ _ _ _ (inSync_Reconcile K r req ha w1 Hpol Hgp Hsvc) Hrun2)
    as (Hs2 & _ & Hcs).
  done.
Qed.

(** *** The three blocks of the Feedback Synchronizer *)

Lemma syncFetchOwner_spec cegp w :
  wp (syncFetchOwner cegp) w (λ o w1,
    store w1 = store w ∧ events w1 = events w ∧
    ∃ own, trace w1 = trace w ++ own ∧
      ((o = inr emptyPolicy ∧ own = []
        ∧ List.find isPolicyRef (OwnerReferences (gp_meta cegp)) = None) ∨
       (∃ ref e,
          List.find isPolicyRef (OwnerReferences (gp_meta cegp)) = Some ref ∧
          own = [(GetPolicyCall (Namespace (gp_meta cegp), ref_Name ref), e)] ∧
          e = errorOf o))).
Proof.
  unfold syncFetchOwner. wp_steps.
  all: do 2 (split; [reflexivity|]); trace_ex; eauto 10.
Qed.

Lemma syncAddress_spec K service cegp ha w ingress0 rest :
  Ingress (svc_Status service) = ingress0 :: rest →
  wp (syncAddress K service cegp ha) w (λ a w1,
    ∃ addr, trace w1 = trace w ++ addr ∧
      AddressOutcome K (store w) (keyOf (gp_meta cegp)) (IP ingress0) addr a).
Proof.
  intros Hing. unfold syncAddress. wp_steps.
  all: trace_ex.
  all: try (apply bool_decide_eq_true in E1).
  all: try (apply bool_decide_eq_false in E1; apply dec_stable in E1).
  all: first
         [ by apply refetch_failed
         | by eapply write_failed
         | by eapply address_written; eauto; repeat constructor
         | by eapply address_current; eauto; repeat constructor ].
Qed.

Lemma syncNode_keeps K service cegp ha :
  Keeps anyStore (λ c, nodeCall c = true) (syncNode K service cegp ha).
Proof.
  unfold syncNode. repeat keeps_step ltac:(done).
Qed.

(** C3 (stale-read guard): when the Service reports an ingress address,
    the calls of a run of the Feedback Synchronizer are: at most the read
    of the owning Policy; then the re-fetch of the GatewayPolicy; then,
    only when the fresh copy's address differs from the Service's first
    ingress address, the update of that fresh copy with the address set;
    then status updates and the node-selector patch.  No update of the
    GatewayPolicy is sent when the fresh copy already carries the address,
    and a failed update ends the run with the check-requeue delay and a
    nil error.  (When the owning Policy cannot be read the run ends before
    the re-fetch, with no write at all.) *)
Theorem sync_refetches_before_address_write K service cegp w ingress0 rest :
  Ingress (svc_Status service) = ingress0 :: rest →
  wp (SyncServiceWithCiliumEgressGatewayPolicy K service cegp) w (λ res w',
    ∃ own addr node,
      trace w' = trace w ++ own ++ addr ++ node ∧
      Forall (λ ce, ownerCall ce.1 = true) own ∧
      Forall (λ ce, nodeCall ce.1 = true) node ∧
      ((∃ key e, own = [(GetPolicyCall key, Some e)] ∧ addr = [] ∧ node = []
                 ∧ res = (mkResult 0, None)) ∨
       (∃ a, AddressOutcome K (store w) (keyOf (gp_meta cegp)) (IP ingress0)
               addr a ∧
             match a with
             | inl res' => res = res' ∧ node = []
             | inr _ => True
             end))).
Proof.
  intros Hing. unfold SyncServiceWithCiliumEgressGatewayPolicy.
  apply wp_bind. eapply wp_mono; [apply syncFetchOwner_spec|].
  intros o w1 (Hs1 & _ & own & Ht1 & Hown); cbn beta.
  assert (Forall (λ ce : Call * option Error, ownerCall ce.1 = true) own) as Hoc.
  { destruct Hown as [(_ & -> & _)|(ref & e & _ & -> & _)]; by repeat constructor. }
  destruct o as [err|ha].
  - wp_steps. exists own, [], []. rewrite !app_nil_r.
    repeat split; [done..|]. left.
    destruct Hown as [(? & _)|(ref & e & _ & -> & ->)]; [done|]. eauto 10.
  - apply wp_bind. eapply wp_mono; [by eapply syncAddress_spec|].
    intros a w2 (addr & Ht2 & Hout); cbn beta. rewrite Hs1 in Hout.
    destruct a as [res|ha'].
    + wp_steps. exists own, addr, []. rewrite !app_nil_r, Ht2, Ht1, <- app_assoc.
      repeat split; [done..|]. right. by exists (inl res).
    + eapply wp_mono; [apply Keeps_wp, syncNode_keeps|].
      intros res w3 (_ & (node & Ht3 & Hnode) & _); cbn beta.
      exists own, addr, node. rewrite Ht3, Ht2, Ht1, <- !app_assoc.
      repeat split; [done..|]. right. by exists (inr ha').
Qed.

(** *** The Event Router *)

Lemma findObjects_fold obj refs acc :
  fold_left
    (λ requests ownerRef,
       if bool_decide (ref_Kind ownerRef = HAEgressGatewayPolicyKind)
       then requests ++ [(Namespace obj, ref_Name ownerRef)]
       else requests) refs acc
  = acc ++ ((λ ref, (Namespace obj, ref_Name ref))
            <$> filter (λ ref, ref_Kind ref = HAEgressGatewayPolicyKind) refs).
Proof.
  revert acc. induction refs as [|ref refs IH]; intros acc; cbn [fold_left].
  - by rewrite app_nil_r.
  - rewrite IH, filter_cons. case_bool_decide; case_decide; try done.
    by rewrite fmap_cons, <- app_assoc.
Qed.

Lemma findObjects_eq obj :
  findObjectsForHaegressGatewayPolicy obj
  = (λ ref, (Namespace obj, ref_Name ref))
    <$> filter (λ ref, ref_Kind ref = HAEgressGatewayPolicyKind)
          (OwnerReferences obj).
Proof. unfold findObjectsForHaegressGatewayPolicy. by rewrite findObjects_fold. Qed.

Lemma elem_of_mapAndEnqueue reqs q x :
  x ∈ mapAndEnqueue q reqs ↔ x ∈ q ∨ x ∈ reqs.
Proof.
  unfold mapAndEnqueue. revert q.
  induction reqs as [|req reqs IH]; intros q; cbn [fold_left].
  - rewrite elem_of_nil. tauto.
  - rewrite IH, elem_of_cons. case_bool_decide as Hq.
    + split; [tauto|]. intros [?|[->|?]]; auto.
    + rewrite elem_of_app, list_elem_of_singleton. tauto.
Qed.

(** *** Which namespace the owning Policy is read from *)

Lemma Sync_reads_owner_in_object_namespace K service cegp :
  Keeps anyStore
    (λ c, ∀ key, c = GetPolicyCall key →
       ∃ ref, List.find isPolicyRef (OwnerReferences (gp_meta cegp)) = Some ref ∧
              key = (Namespace (gp_meta cegp), ref_Name ref))
    (SyncServiceWithCiliumEgressGatewayPolicy K service cegp).
Proof.
  unfold SyncServiceWithCiliumEgressGatewayPolicy, syncFetchOwner, syncAddress,
    syncNode.
  repeat keeps_step ltac:(first [done | intros ? ?; simplify_eq; eauto]).
Qed.

Lemma isPolicyRef_controllerRef ha : isPolicyRef (controllerRef ha) = true.
Proof. unfold isPolicyRef. by rewrite bool_decide_eq_true_2. Qed.

Lemma UpdateOrCreateCiliumEgressGatewayPolicy_reads_owner K r ha w :
  wp (UpdateOrCreateCiliumEgressGatewayPolicy K r ha) w (λ _ w',
    ∃ cs, trace w' = trace w ++ cs ∧
      ∀ key e, (GetPolicyCall key, e) ∈ cs →
        key = (EmptyString, Name (ha_meta ha))).
Proof.
  unfold UpdateOrCreateCiliumEgressGatewayPolicy. wp_steps.
  all: try (trace_ex; intros key e' Hin; by elem_cases Hin).
  eapply wp_mono; [apply Keeps_wp, Sync_reads_owner_in_object_namespace|].
  intros [res e'] w1 (_ & (cs & Ht & Hcs) & _); cbn beta. wp_steps.
  cbn in Ht. rewrite Ht, <- !app_assoc. eexists. split; [done|].
  intros key e2 Hin. rewrite !elem_of_app in Hin.
  destruct Hin as [Hin|[Hin|[Hin|Hin]]]; try by elem_cases Hin.
  rewrite Forall_forall in Hcs. pose proof (Hcs _ Hin) as Hk. cbn in Hk.
  destruct (Hk key eq_refl) as (ref & Hfind & ->).
  cbn in Hfind. rewrite isPolicyRef_controllerRef in Hfind. by simplify_eq.
Qed.

(** C10 (namespace of the owning Policy): every request of the Event
    Router carries the watched object's own namespace, with the name of an
    owner reference of the kind; the Feedback Synchronizer reads the owning
    Policy under the GatewayPolicy's own namespace and the name of the first
    owner reference of the kind; and for the GatewayPolicy the reconciler
    builds, which has no namespace, the Policy is read with an empty
    namespace. *)
Theorem owner_addressed_in_object_namespace K r service cegp ha obj w :
  (∀ req, req ∈ findObjectsForHaegressGatewayPolicy obj →
     req.1 = Namespace obj ∧
     ∃ ref, ref ∈ OwnerReferences obj ∧
            ref_Kind ref = HAEgressGatewayPolicyKind ∧ req.2 = ref_Name ref) ∧
  wp (SyncServiceWithCiliumEgressGatewayPolicy K service cegp) w (λ _ w',
    ∃ cs, trace w' = trace w ++ cs ∧
      ∀ key e, (GetPolicyCall key, e) ∈ cs →
        ∃ ref, List.find isPolicyRef (OwnerReferences (gp_meta cegp)) = Some ref ∧
               key = (Namespace (gp_meta cegp), ref_Name ref)) ∧
  Namespace (gp_meta (ciliumEgressGatewayPolicyNew K r ha)) = EmptyString ∧
  wp (UpdateOrCreateCiliumEgressGatewayPolicy K r ha) w (λ _ w',
    ∃ cs, trace w' = trace w ++ cs ∧
      ∀ key e, (GetPolicyCall key, e) ∈ cs →
        key = (EmptyString, Name (ha_meta ha))).
Proof.
  repeat split.
  - rewrite findObjects_eq in H.
    apply list_elem_of_fmap in H as (ref & -> & _). done.
  - rewrite findObjects_eq in H.
    apply list_elem_of_fmap in H as (ref & -> & [? ?]%list_elem_of_filter).
    by exists ref.
  - eapply wp_mono; [apply Keeps_wp, Sync_reads_owner_in_object_namespace|].
    intros res w1 (_ & (cs & Ht & Hcs) & _); cbn beta. exists cs. split; [done|].
    intros key e Hin. rewrite Forall_forall in Hcs.
    by apply (Hcs _ Hin key).
  - apply UpdateOrCreateCiliumEgressGatewayPolicy_reads_owner.
Qed.

(** C5, as the code has it: the Event Router emits one request for every
    owner reference of kind HAEgressGatewayPolicy, in the order of the
    list, each with that reference's name and the object's namespace.  So
    it emits none when there is no such reference and exactly one when
    there is exactly one. *)
Theorem router_one_request_per_policy_owner obj :
  findObjectsForHaegressGatewayPolicy obj
  = (λ ref, (Namespace obj, ref_Name ref))
    <$> filter (λ ref, ref_Kind ref = HAEgressGatewayPolicyKind)
          (OwnerReferences obj)
  ∧ length (findObjectsForHaegressGatewayPolicy obj)
    = length (filter (λ ref, ref_Kind ref = HAEgressGatewayPolicyKind)
                (OwnerReferences obj)).
Proof.
  rewrite findObjects_eq. split; [done|]. by rewrite length_fmap.
Qed.

(** C5, as stated, fails: an object with two owner references of the kind
    gets two requests. *)
Lemma router_two_owners_two_requests :
  findObjectsForHaegressGatewayPolicy Sample.twoOwners
  = [("egress-system", "a"); ("egress-system", "b")]
  ∧ ¬ (length (findObjectsForHaegressGatewayPolicy Sample.twoOwners) ≤ 1).
Proof. split; [reflexivity|]. intros H. vm_compute in H. lia. Qed.

(** C8 (watch filters): on a watch of a derived object (Service or
    CiliumEgressGatewayPolicy) a delete event passes the predicate and
    puts on the queue the request of every owning Policy the router finds;
    a create, update or generic event is filtered and puts nothing on the
    queue. *)
Theorem watch_delete_only k e :
  k = ServiceKind ∨ k = GatewayPolicyKind →
  match e with
  | DeleteEvent obj =>
      watchPredicate k e = true ∧
      (∀ req, req ∈ watchRequests k e ↔
              req ∈ findObjectsForHaegressGatewayPolicy obj) ∧
      (∀ ref, ref ∈ OwnerReferences obj →
              ref_Kind ref = HAEgressGatewayPolicyKind →
              (Namespace obj, ref_Name ref) ∈ watchRequests k e)
  | _ => watchPredicate k e = false ∧ watchRequests k e = []
  end.
Proof.
  intros [-> | ->]; destruct e as [obj|old new|obj|obj]; try done.
  all: unfold watchRequests; cbn.
  all: split; [done|].
  all: assert (∀ req, req ∈ mapAndEnqueue [] (findObjectsForHaegressGatewayPolicy obj)
                      ↔ req ∈ findObjectsForHaegressGatewayPolicy obj) as Hq
         by (intros req; rewrite elem_of_mapAndEnqueue, elem_of_nil; tauto).
  all: split; [done|].
  all: intros ref Hin Hkind; apply Hq; rewrite findObjects_eq.
  all: apply list_elem_of_fmap; exists ref; split; [done|].
  all: by apply list_elem_of_filter.
Qed.

(** *** The Background Sweeper *)

Lemma backgroundTick_uninitialised K r w :
  lastServiceUpdate w = None →
  backgroundTick K r w
  = (tt, mkWorld (store w) (faults w) (trace w) (events w) (now w)
           (Some (now w))).
Proof.
  intros H. unfold backgroundTick, mbind, M_bind, lastServiceUpdateLoad.
  by rewrite H.
Qed.

Lemma backgroundTick_skip K r w lastUpdate :
  lastServiceUpdate w = Some lastUpdate →
  (timeSub (now w) lastUpdate < skipThreshold r)%Z →
  backgroundTick K r w = (tt, w).
Proof.
  intros H Hlt. unfold backgroundTick, mbind, M_bind, lastServiceUpdateLoad.
  rewrite H. unfold timeSince, mbind, M_bind, mret, M_ret, timeNow.
  by rewrite bool_decide_eq_true_2.
Qed.

Lemma backgroundTick_sweep K r w lastUpdate :
  lastServiceUpdate w = Some lastUpdate →
  ¬ (timeSub (now w) lastUpdate < skipThreshold r)%Z →
  backgroundTick K r w
  = match hd None (faults w) with
    | Some code =>
        (tt, called ListPoliciesCall (Some (Transient code)) w)
    | None =>
        forEach ((map_to_list (policies (store w))).*2)
          (λ policy,
             _ ← UpdateOrCreateCiliumEgressGatewayPolicy K r policy;
             _ ← UpdateOrCreateService K r policy;
             mret tt)
          (called ListPoliciesCall None w)
    end.
Proof.
  intros H Hge. unfold backgroundTick, mbind, M_bind, lastServiceUpdateLoad.
  rewrite H. unfold timeSince, mbind, M_bind, mret, M_ret, timeNow.
  rewrite bool_decide_eq_false_2 by done.
  unfold ListPolicies, mbind, M_bind, mret, M_ret, popFault, getStore, logCall.
  cbn. by destruct (hd None (faults w)).
Qed.

Lemma sweep_extends_trace K r items w :
  ∃ cs, trace (forEach items
                 (λ policy,
                    _ ← UpdateOrCreateCiliumEgressGatewayPolicy K r policy;
                    _ ← UpdateOrCreateService K r policy;
                    mret tt) w).2 = trace w ++ cs.
Proof.
  assert (Keeps anyStore (λ _, True)
            (forEach items
               (λ policy,
                  _ ← UpdateOrCreateCiliumEgressGatewayPolicy K r policy;
                  _ ← UpdateOrCreateService K r policy;
                  mret tt))) as Hk.
  { apply Keeps_forEach; [apply _|]. intros policy.
    apply Keeps_bind; [apply _| |intros _].
    { eapply Keeps_weaken;
        [apply UpdateOrCreateCiliumEgressGatewayPolicy_keeps_services|done..]. }
    apply Keeps_bind; [apply _| |intros _; by apply Keeps_ret].
    eapply Keeps_weaken;
      [apply UpdateOrCreateService_keeps_gatewayPolicies|done..]. }
  destruct (Hk w) as (_ & (cs & Ht & _) & _). by exists cs.
Qed.

(** What a tick does when the marker is set: it makes no call at all
    exactly when the time since the marker is below the threshold the
    code computes, and otherwise its first call lists the Policies. *)
Lemma backgroundTick_threshold K r w lastUpdate :
  lastServiceUpdate w = Some lastUpdate →
  ((timeSub (now w) lastUpdate < skipThreshold r)%Z →
     (backgroundTick K r w).2 = w) ∧
  (¬ (timeSub (now w) lastUpdate < skipThreshold r)%Z →
     ∃ e rest, trace (backgroundTick K r w).2
               = trace w ++ (ListPoliciesCall, e) :: rest).
Proof.
  intros H. split.
  - intros Hlt. by rewrite (backgroundTick_skip _ _ _ _ H Hlt).
  - intros Hge. rewrite (backgroundTick_sweep _ _ _ _ H Hge).
    destruct (hd None (faults w)) as [code|].
    + by exists (Some (Transient code)), [].
    + destruct (sweep_extends_trace K r ((map_to_list (policies (store w))).*2)
                  (called ListPoliciesCall None w)) as (cs & ->).
      exists None, cs. cbn. by rewrite <- app_assoc.
Qed.

(** The threshold the code computes is the exact half of the interval for
    an even number of seconds, and half a second short of it for an odd
    one. *)
Lemma skipThreshold_cases r :
  (0 ≤ BackgroundCheckerSeconds r < 2 ^ 32)%Z →
  (2 * skipThreshold r
   = (BackgroundCheckerSeconds r - BackgroundCheckerSeconds r `rem` 2) * Second)%Z.
Proof.
  intros Hr. unfold skipThreshold, wrap64, Second.
  pose proof (Z.quot_rem' (BackgroundCheckerSeconds r) 2) as Hqr.
  pose proof (Z.rem_bound_pos (BackgroundCheckerSeconds r) 2) as Hb.
  rewrite Z.mod_small; lia.
Qed.

(** C4, at a failing input: with a sweep interval of 5 seconds and a
    marker that is 2.2 seconds old, the elapsed time is less than half the
    interval (2.5 seconds), yet the tick is not skipped: the threshold the
    code computes is 2 seconds and the tick lists the Policies. *)
Theorem sweep_threshold_truncates :
  lastServiceUpdate Sample.recentWorld = Some 0%Z ∧
  (2 * timeSub (now Sample.recentWorld) 0
   < BackgroundCheckerSeconds Sample.r5 * Second)%Z ∧
  skipThreshold Sample.r5 = 2000000000%Z ∧
  head (trace (backgroundTick Sample.K Sample.r5 Sample.recentWorld).2)
  = Some (ListPoliciesCall, None).
Proof. repeat split; by vm_compute. Qed.

Lemma ticks_all_skipped K r t1 ticks w :
  lastServiceUpdate w = Some t1 →
  Forall (λ t, (timeSub t t1 < skipThreshold r)%Z) ticks →
  trace (backgroundPeriodicalCheck K r ticks w).2 = trace w.
Proof.
  unfold backgroundPeriodicalCheck. revert w.
  induction ticks as [|t ticks IH]; intros w Hm Hall; [done|].
  apply Forall_cons in Hall as [Ht Hall].
  cbn [forEach]. unfold mbind, M_bind. cbn [clockSet].
  rewrite (backgroundTick_skip K r _ t1) by done.
  by rewrite IH.
Qed.

(** C9 (first tick): with the marker never set, a tick makes no call to
    the store, reconciles nothing, and stores the current time as the
    marker; after it, a later tick can reach the store only once the time
    since that marker is no longer below the threshold. *)
Theorem first_tick_sets_marker K r w t1 ticks :
  lastServiceUpdate w = None →
  backgroundPeriodicalCheck K r [t1] w
  = (tt, mkWorld (store w) (faults w) (trace w) (events w) t1 (Some t1)) ∧
  (trace (backgroundPeriodicalCheck K r (t1 :: ticks) w).2 ≠ trace w →
   ∃ t, t ∈ ticks ∧ (skipThreshold r ≤ timeSub t t1)%Z).
Proof.
  intros Hm.
  assert (∀ l, backgroundPeriodicalCheck K r (t1 :: l) w
               = backgroundPeriodicalCheck K r l
                   (mkWorld (store w) (faults w) (trace w) (events w) t1 (Some t1)))
    as Hstep.
  { intros l. unfold backgroundPeriodicalCheck. cbn [forEach].
    unfold mbind, M_bind. cbn [clockSet].
    by rewrite backgroundTick_uninitialised. }
  split; [by rewrite Hstep|].
  rewrite Hstep. intros Hne.
  destruct (decide (Forall (λ t, (timeSub t t1 < skipThreshold r)%Z) ticks))
    as [Hall|Hex].
  - by rewrite (ticks_all_skipped K r t1) in Hne.
  - apply not_Forall_Exists in Hex; [|apply _].
    apply Exists_exists in Hex as (t & Hin & Ht). unfold compose in Ht.
    exists t. split; [done|]. lia.
Qed.

(** *** A recreated GatewayPolicy regains the address *)

#[global] Instance addressKept_preorder key : PreOrder (addressKept key).
Proof.
  split.
  - intros s g Hg. by exists g.
  - intros s1 s2 s3 H12 H23 g Hg.
    destruct (H12 g Hg) as (g2 & Hg2 & Hm2 & Hip2).
    destruct (H23 g2 Hg2) as (g3 & Hg3 & Hm3 & Hip3).
    exists g3. split; [done|]. split; congruence.
Qed.




(** C7, at a failing input: the Service of [web] is owned by it and only
    its selector differs from the desired one.  The step sends the whole
    freshly built Service in the update, so the stored label [team] and
    the stored port are replaced by the desired ones, and it records no
    event; the sibling step for the GatewayPolicy writes the selector into
    the fetched copy and records the Updated event. *)
Theorem service_update_replaces_object :
  IsControlledBy (svc_meta Sample.driftedService) (ha_meta Sample.web) = true ∧
  trace (UpdateOrCreateService Sample.K Sample.r Sample.web
           (Sample.emptyWorld Sample.driftedStore)).2
  = [(GetServiceCall ("egress-system", "web"), None);
     (UpdateServiceCall (ownedService Sample.K Sample.r Sample.web), None)] ∧
  Labels (svc_meta Sample.driftedService) !! "team" = Some "net" ∧
  Ports (svc_Spec Sample.driftedService) = [mkServicePort "http" "TCP" 80] ∧
  (∃ stored,
     services (store (UpdateOrCreateService Sample.K Sample.r Sample.web
                        (Sample.emptyWorld Sample.driftedStore)).2)
     !! ("egress-system", "web") = Some stored ∧
     Labels (svc_meta stored) !! "team" = None ∧
     Ports (svc_Spec stored) = [mkServicePort "nope" "TCP" 65534] ∧
     Selector (svc_Spec stored) = desiredSelector Sample.K Sample.r Sample.web) ∧
  events (UpdateOrCreateService Sample.K Sample.r Sample.web
            (Sample.emptyWorld Sample.driftedStore)).2 = [].
Proof.
  split; [by vm_compute|]. split; [by vm_compute|]. split; [by vm_compute|].
  split; [by vm_compute|]. split; [|by vm_compute].
  eexists. split; [by vm_compute|]. by vm_compute.
Qed.

(** *** The statements at concrete inputs *)

Lemma reconcile_idempotent_witness :
  policies (store Sample.syncedWorld) !! ("", "web") = Some Sample.web ∧
  gatewayPolicyInSync Sample.K Sample.r Sample.web (store Sample.syncedWorld)
  = true ∧
  serviceInSync Sample.K Sample.r Sample.web (store Sample.syncedWorld) = true ∧
  store (Reconcile Sample.K Sample.r ("", "web")
           (Reconcile Sample.K Sample.r ("", "web") Sample.syncedWorld).2).2
  = store (Reconcile Sample.K Sample.r ("", "web") Sample.syncedWorld).2 ∧
  ∃ cs,
    trace (Reconcile Sample.K Sample.r ("", "web")
             (Reconcile Sample.K Sample.r ("", "web") Sample.syncedWorld).2).2
    = trace (Reconcile Sample.K Sample.r ("", "web") Sample.syncedWorld).2 ++ cs
    ∧ readsOnly cs.
Proof.
  split; [by vm_compute|]. split; [by vm_compute|]. split; [by vm_compute|].
  eapply (reconcile_idempotent Sample.K Sample.r ("", "web") Sample.web
            Sample.syncedWorld);
    [by vm_compute|by vm_compute|by vm_compute
    |apply surjective_pairing|apply surjective_pairing].
Defined.


Lemma sync_refetches_before_address_write_witness :
  Ingress (svc_Status Sample.probeService) = [mkIngress "10.0.0.5"] ∧
  wp (SyncServiceWithCiliumEgressGatewayPolicy Sample.K Sample.probeService
        (ownedGatewayPolicy Sample.K Sample.r Sample.web))
    Sample.syncedWorld
    (λ res w',
       ∃ own addr node,
         trace w' = trace Sample.syncedWorld ++ own ++ addr ++ node ∧
         Forall (λ ce, ownerCall ce.1 = true) own ∧
         Forall (λ ce, nodeCall ce.1 = true) node ∧
         ((∃ key e, own = [(GetPolicyCall key, Some e)] ∧ addr = [] ∧ node = []
                    ∧ res = (mkResult 0, None)) ∨
          (∃ a, AddressOutcome Sample.K (store Sample.syncedWorld)
                  (keyOf (gp_meta (ownedGatewayPolicy Sample.K Sample.r Sample.web)))
                  (IP (mkIngress "10.0.0.5")) addr a ∧
                match a with
                | inl res' => res = res' ∧ node = []
                | inr _ => True
                end))).
Proof.
  split; [reflexivity|].
  apply (sync_refetches_before_address_write Sample.K Sample.probeService
           (ownedGatewayPolicy Sample.K Sample.r Sample.web) Sample.syncedWorld
           (mkIngress "10.0.0.5") []).
  reflexivity.
Defined.


Lemma watch_delete_only_witness :
  watchPredicate ServiceKind (DeleteEvent Sample.twoOwners) = true ∧
  (∀ req, req ∈ watchRequests ServiceKind (DeleteEvent Sample.twoOwners) ↔
          req ∈ findObjectsForHaegressGatewayPolicy Sample.twoOwners) ∧
  (∀ ref, ref ∈ OwnerReferences Sample.twoOwners →
          ref_Kind ref = HAEgressGatewayPolicyKind →
          (Namespace Sample.twoOwners, ref_Name ref)
          ∈ watchRequests ServiceKind (DeleteEvent Sample.twoOwners)).
Proof.
  apply (watch_delete_only ServiceKind (DeleteEvent Sample.twoOwners)).
  left. reflexivity.
Defined.

Lemma first_tick_sets_marker_witness :
  lastServiceUpdate (Sample.emptyWorld Sample.freshStore) = None ∧
  backgroundPeriodicalCheck Sample.K Sample.r [1000%Z]
    (Sample.emptyWorld Sample.freshStore)
  = (tt, mkWorld Sample.freshStore [] [] [] 1000 (Some 1000%Z)) ∧
  (trace (backgroundPeriodicalCheck Sample.K Sample.r
            [1000%Z; 40000000000%Z] (Sample.emptyWorld Sample.freshStore)).2
   ≠ trace (Sample.emptyWorld Sample.freshStore) →
   ∃ t, t ∈ [40000000000%Z] ∧ (skipThreshold Sample.r ≤ timeSub t 1000)%Z).
Proof.
  split; [reflexivity|].
  apply (first_tick_sets_marker Sample.K Sample.r
           (Sample.emptyWorld Sample.freshStore) 1000 [40000000000%Z]).
  reflexivity.
Defined.

(** The scenario of the Policy [web], end to end: the first Reconcile
    creates the GatewayPolicy [egress-system-web] and the Service
    [egress-system/web]; after the allocator has answered, one run of the
    synchronizer sets the address and the node on the GatewayPolicy and both
    in the Policy's status; a second run only reads. *)
Example scenario_web :
  (isWrite ∘ fst) <$> trace (Reconcile Sample.K Sample.r ("", "web")
                               (Sample.emptyWorld Sample.freshStore)).2
  = [false; false; true; false; false; true] ∧
  dom (gatewayPolicies Sample.syncedStore) = {[ ("", "egress-system-web") ]} ∧
  dom (services Sample.syncedStore) = {[ ("egress-system", "web") ]} ∧
  (let w := (Sample.synchronize Sample.allocatedWorld).2 in
   (egressGateway ∘ gp_Spec) <$> gatewayPolicies (store w)
                                 !! ("", "egress-system-web")
   = Some (mkEgressGateway (mkLabelSelector {["node-name" := "node-3"]}) ""
             "10.0.0.5") ∧
   ha_Status <$> policies (store w) !! ("", "web")
   = Some (mkHAStatus "10.0.0.5" "node-3" 200) ∧
   store (Sample.synchronize w).2 = store w ∧
   (isWrite ∘ fst) <$> drop (length (trace w)) (trace (Sample.synchronize w).2)
   = [false; false]).
Proof. repeat split; by vm_compute. Qed.

(** ** Further properties of the code *)

(** *** Reconcile and the two steps *)

(** X1: when the Policy cannot be fetched, because the call fails or
    because there is no such Policy, Reconcile makes that one Get call and
    nothing else: the store, the events and the activity marker stay as
    they are.  Not-found gives a nil error, any other failure is returned
    as it is, and in both cases no requeue delay is asked for. *)
Theorem reconcile_policy_unavailable K r req w :
  hd None (faults w) ≠ None ∨ policies (store w) !! req = None →
  wp (Reconcile K r req) w (λ res w',
    ∃ e, w' = called (GetPolicyCall req) (Some e) w ∧
         res = (mkResult 0, if IsNotFound e then None else Some e) ∧
         (e = NotFound ↔ hd None (faults w) = None)).
Proof.
  intros H. unfold Reconcile. apply wp_bind, wp_storeGet. unfold getResult.
  destruct (hd None (faults w)) as [code|] eqn:Hf; world_simpl.
  - wp_steps. by exists (Transient code).
  - destruct H as [H|H]; [done|]. rewrite H. world_simpl. wp_steps.
    by exists NotFound.
Qed.

(** X2: the GatewayPolicy step on an owned GatewayPolicy whose selectors
    differ from the Policy's.  When the step returns nil, the stored object
    is the fetched one with only its selectors replaced (metadata, address,
    node selector and CIDRs as stored), nothing else in the store changed,
    and exactly the Updated event was recorded.  When it returns an error,
    neither the store nor the events changed. *)
Theorem gatewayPolicy_selector_update K r ha w ex :
  gatewayPolicies (store w) !! gatewayPolicyKey K r ha = Some ex →
  keyOf (gp_meta ex) = gatewayPolicyKey K r ha →
  IsControlledBy (gp_meta ex) (ha_meta ha) = true →
  Selectors (gp_Spec ex) ≠ Selectors (ha_Spec ha) →
  wp (UpdateOrCreateCiliumEgressGatewayPolicy K r ha) w (λ err w',
    match err with
    | None =>
        store w'
        = mkCluster (policies (store w))
            (<[gatewayPolicyKey K r ha :=
                 mkCEGP (gp_meta ex)
                   (withSelectors (Selectors (ha_Spec ha)) (gp_Spec ex))]>
               (gatewayPolicies (store w)))
            (services (store w)) ∧
        events w'
        = events w ++ [gatewayPolicyUpdatedEvent ha (Name (gp_meta ex))] ∧
        trace w'
        = trace w
          ++ [(GetGatewayPolicyCall (gatewayPolicyKey K r ha), None);
              (UpdateGatewayPolicyCall
                 (mkCEGP (gp_meta ex)
                    (withSelectors (Selectors (ha_Spec ha)) (gp_Spec ex))),
               None)]
    | Some _ => store w' = store w ∧ events w' = events w
    end).
Proof.
  intros Hex Hkey Hown Hne. unfold gatewayPolicyKey, keyOf in *.
  assert (bool_decide (Selectors (gp_Spec ex) ≠ Selectors (ha_Spec ha)) = true)
    as Hb by (by apply bool_decide_eq_true_2).
  unfold UpdateOrCreateCiliumEgressGatewayPolicy. wp_steps.
  all: try done.
  by rewrite <- app_assoc.
Qed.

(** X3: the Service step when there is no Service under the name.  Either
    it returns an error before the create call and changes nothing, or its
    calls are the lookup and the create of the desired Service, owned by the
    Policy.  The Created event is recorded once the create call was made,
    whether or not it succeeded; the error of the create call is what the
    step returns, and the store holds the desired Service exactly when the
    call succeeded. *)
Theorem service_create_path K r ha w :
  services (store w) !! serviceKey K r ha = None →
  wp (UpdateOrCreateService K r ha) w (λ err w',
    (err ≠ None ∧ store w' = store w ∧ events w' = events w ∧
     ∃ cs, trace w' = trace w ++ cs ∧ readsOnly cs) ∨
    (trace w'
     = trace w ++ [(GetServiceCall (serviceKey K r ha), Some NotFound);
                   (CreateServiceCall (ownedService K r ha), err)] ∧
     events w' = events w ++ [serviceCreatedEvent K r ha] ∧
     store w'
     = match err with
       | None =>
           mkCluster (policies (store w)) (gatewayPolicies (store w))
             (<[serviceKey K r ha := ownedService K r ha]> (services (store w)))
       | Some _ => store w
       end)).
Proof.
  intros Hnone. unfold serviceKey, ownedService, serviceCreatedEvent in *.
  unfold UpdateOrCreateService. wp_steps.
  all: try (left; split; [done|]; do 2 (split; [done|]); trace_ex;
            by repeat constructor).
  right. rewrite <- app_assoc.
  unfold writeResult. rewrite Hnone.
  by destruct (hd None (tail (tail (faults w)))).
Qed.

(** X4: what the derived objects inherit.  The GatewayPolicy carries the
    Policy's labels and annotations as they are, the Service its
    annotations.  On the Service the three injected labels win over a
    Policy label of the same key, and every other label of the Policy is
    kept. *)
Theorem derived_labels K r ha k :
  Labels (gp_meta (ownedGatewayPolicy K r ha)) = Labels (ha_meta ha) ∧
  Annotations (gp_meta (ownedGatewayPolicy K r ha)) = Annotations (ha_meta ha) ∧
  Annotations (svc_meta (ownedService K r ha)) = Annotations (ha_meta ha) ∧
  Labels (svc_meta (ownedService K r ha)) !! HAEgressGatewayPolicyName K
  = Some (Name (ha_meta ha)) ∧
  (HAEgressGatewayPolicyNamespace K ≠ HAEgressGatewayPolicyName K →
   Labels (svc_meta (ownedService K r ha)) !! HAEgressGatewayPolicyNamespace K
   = Some (serviceNamespaceOf K r ha)) ∧
  (KubernetesServiceProxyNameAnnotation K ≠ HAEgressGatewayPolicyName K →
   KubernetesServiceProxyNameAnnotation K ≠ HAEgressGatewayPolicyNamespace K →
   Labels (svc_meta (ownedService K r ha))
   !! KubernetesServiceProxyNameAnnotation K
   = Some "kubevip-managed-by-cilium-haegess") ∧
  (k ≠ HAEgressGatewayPolicyName K →
   k ≠ HAEgressGatewayPolicyNamespace K →
   k ≠ KubernetesServiceProxyNameAnnotation K →
   Labels (svc_meta (ownedService K r ha)) !! k = Labels (ha_meta ha) !! k).
Proof.
  unfold ownedGatewayPolicy, ownedService, ciliumEgressGatewayPolicyNew,
    serviceNew.
  cbn [gp_meta svc_meta withOwnerReferences Labels Annotations].
  repeat split; intros;
    repeat first [ done | rewrite lookup_insert_eq
                 | rewrite lookup_insert_ne by done ].
Qed.

Lemma string_app_inv_head (s a b : string) : s +:+ a = s +:+ b → a = b.
Proof. induction s as [|c s IH]; cbn; [done|]. intros [= H]. auto. Qed.

(** X5: the name of the GatewayPolicy.  For Policies with one target
    namespace it is as distinct as the Policy names are.  Across target
    namespaces it is not: two Policies whose Services live under different
    names can share the name of their GatewayPolicy. *)
Theorem gatewayPolicy_names K r :
  (∀ ha1 ha2,
     serviceNamespaceOf K r ha1 = serviceNamespaceOf K r ha2 →
     (gatewayPolicyKey K r ha1 = gatewayPolicyKey K r ha2
      ↔ Name (ha_meta ha1) = Name (ha_meta ha2))) ∧
  (∃ ha1 ha2,
     serviceKey K r ha1 ≠ serviceKey K r ha2 ∧
     gatewayPolicyKey K r ha1 = gatewayPolicyKey K r ha2).
Proof.
  split.
  - intros ha1 ha2 Hns. unfold gatewayPolicyKey. rewrite Hns. split.
    + intros [= H]. by apply string_app_inv_head, string_app_inv_head in H.
    + by intros ->.
  - exists (Cases.policyIn K "a-b" "c"), (Cases.policyIn K "a" "b-c").
    unfold serviceKey, gatewayPolicyKey, serviceNamespaceOf, Cases.policyIn,
      mapIndex.
    cbn [ha_meta Annotations Name]. rewrite !lookup_singleton_eq. cbn.
    split; [by intros [=]|done].
Qed.

(** *** What the controller never changes *)

#[global] Instance policyFrame_preorder : PreOrder policyFrame.
Proof.
  split.
  - intros s k. by destruct (policies s !! k).
  - intros s1 s2 s3 H12 H23 k. specialize (H12 k). specialize (H23 k).
    destruct (policies s1 !! k), (policies s2 !! k), (policies s3 !! k);
      try done.
    destruct H12, H23. split; congruence.
Qed.

Lemma policyFrame_same s s' : policies s' = policies s → policyFrame s s'.
Proof. intros H k. rewrite H. by destruct (policies s !! k). Qed.

(** A write keeps the Policies up to their status. *)
Ltac policy_side :=
  try done;
  let s := fresh "s" in let s' := fresh "s'" in let H := fresh "H" in
  let k := fresh "k" in
  intros s s' H; repeat case_match; simplify_eq;
  first
    [ by apply policyFrame_same
    | intros k; cbn [policies];
      match goal with
      | |- context [<[?key := _]> _ !! k] =>
          destruct (decide (key = k)) as [<-|?];
          [ rewrite lookup_insert_eq;
            match goal with H : _ !! _ = Some _ |- _ => by rewrite H end
          | rewrite lookup_insert_ne by done;
            by destruct (policies s !! k) ]
      end ].

Lemma Sync_keeps_policies K service cegp :
  Keeps policyFrame (λ _, True)
    (SyncServiceWithCiliumEgressGatewayPolicy K service cegp).
Proof.
  unfold SyncServiceWithCiliumEgressGatewayPolicy, syncFetchOwner, syncAddress,
    syncNode.
  repeat keeps_step policy_side.
Qed.

Lemma sweepOne_keeps_policies K r ha :
  Keeps policyFrame (λ _, True) (sweepOne K r ha).
Proof.
  unfold sweepOne, UpdateOrCreateCiliumEgressGatewayPolicy,
    UpdateOrCreateService.
  repeat first [ apply Sync_keeps_policies | keeps_step policy_side ].
Qed.

Lemma Reconcile_keeps_policies K r req :
  Keeps policyFrame (λ _, True) (Reconcile K r req).
Proof.
  unfold Reconcile, UpdateOrCreateCiliumEgressGatewayPolicy,
    UpdateOrCreateService.
  repeat first [ apply Sync_keeps_policies | keeps_step policy_side ].
Qed.

Lemma backgroundTick_keeps_policies K r :
  Keeps policyFrame (λ _, True) (backgroundTick K r).
Proof.
  unfold backgroundTick, timeSince.
  repeat first [ apply (sweepOne_keeps_policies K r) | keeps_step policy_side ].
Qed.

(** X6: the Policy is the user's.  Reconcile, the synchronizer and a sweep
    tick never add or remove a Policy and never change the metadata or the
    spec of one: between the store before and the store after, a Policy can
    differ in its status only. *)
Theorem policy_only_status_changes K r req service cegp w :
  policyFrame (store w) (store (Reconcile K r req w).2) ∧
  policyFrame (store w)
    (store (SyncServiceWithCiliumEgressGatewayPolicy K service cegp w).2) ∧
  policyFrame (store w) (store (backgroundTick K r w).2).
Proof.
  split; [|split].
  - apply Reconcile_keeps_policies.
  - apply Sync_keeps_policies.
  - apply backgroundTick_keeps_policies.
Qed.

Lemma sameShape_refl g : sameShape g g.
Proof. by repeat split. Qed.

Lemma sameShape_trans g1 g2 g3 : sameShape g1 g2 → sameShape g2 g3 → sameShape g1 g3.
Proof.
  unfold sameShape. intros (?&?&?&?&?) (?&?&?&?&?). repeat split; congruence.
Qed.

#[global] Instance shapeKept_preorder : PreOrder shapeKept.
Proof.
  split.
  - intros s. split; [done|]. intros k.
    destruct (gatewayPolicies s !! k); [apply sameShape_refl|done].
  - intros s1 s2 s3 [Hs12 H12] [Hs23 H23]. split; [congruence|].
    intros k. specialize (H12 k). specialize (H23 k).
    destruct (gatewayPolicies s1 !! k), (gatewayPolicies s2 !! k),
      (gatewayPolicies s3 !! k); try done.
    by eapply sameShape_trans.
Qed.

Lemma shapeKept_same s s' :
  services s' = services s → gatewayPolicies s' = gatewayPolicies s →
  shapeKept s s'.
Proof.
  intros Hs Hg. split; [done|]. intros k. rewrite Hg.
  destruct (gatewayPolicies s !! k); [apply sameShape_refl|done].
Qed.

Lemma shapeKept_insert s s' key g g' :
  services s' = services s →
  gatewayPolicies s !! key = Some g → sameShape g g' →
  gatewayPolicies s' = <[key := g']> (gatewayPolicies s) →
  shapeKept s s'.
Proof.
  intros Hs Hg Hsh Hg'. split; [done|]. intros k. rewrite Hg'.
  destruct (decide (key = k)) as [<-|Hne].
  - by rewrite lookup_insert_eq, Hg.
  - rewrite lookup_insert_ne by done.
    destruct (gatewayPolicies s !! k); [apply sameShape_refl|done].
Qed.

Lemma syncNode_keeps_shape K service cegp ha :
  plainText (NodeNameAnnotation K) = true →
  plainText (currentHostOf K service) = true →
  Keeps shapeKept (λ _, True) (syncNode K service cegp ha).
Proof.
  intros Hlabel Hhost. unfold currentHostOf in Hhost.
  unfold syncNode. repeat keeps_step ltac:(try done).
  - intros s s' Hupd. repeat case_match; simplify_eq. by apply shapeKept_same.
  - intros s s'.
    destruct (gatewayPolicies s !! _) as [old|] eqn:Hold; [|done].
    rewrite mergePatch_plain by done. intros Hupd.
    repeat case_match; simplify_eq.
    eapply shapeKept_insert; [done|done| |done]. by repeat split.
Qed.

Lemma Sync_shape K service cegp w :
  plainText (NodeNameAnnotation K) = true →
  plainText (currentHostOf K service) = true →
  (∀ g, gatewayPolicies (store w) !! keyOf (gp_meta cegp) = Some g →
        keyOf (gp_meta g) = keyOf (gp_meta cegp)) →
  wp (SyncServiceWithCiliumEgressGatewayPolicy K service cegp) w (λ _ w',
    shapeKept (store w) (store w')).
Proof.
  intros Hlabel Hhost Hkey.
  assert (∀ a1 w1, shapeKept (store w) (store w1) →
            wp (syncNode K service cegp a1) w1
              (λ _ w', shapeKept (store w) (store w'))) as Hnode.
  { intros a1 w1 H1.
    eapply wp_mono; [by apply Keeps_wp, syncNode_keeps_shape; try apply _|].
    intros _ w2 (H2 & _); cbn beta. by etrans. }
  unfold keyOf in *.
  unfold SyncServiceWithCiliumEgressGatewayPolicy, syncFetchOwner, syncAddress.
  wp_steps.
  all: try apply Hnode; cbn [store wrote called].
  all: try reflexivity.
  all: try (pose proof (Hkey _ eq_refl) as Hk; rewrite Hk in *; simplify_eq).
  all: unfold writeResult; repeat case_match; simplify_eq.
  all: try (by apply shapeKept_same).
  all: eapply shapeKept_insert; [done|eassumption| |done]; by repeat split.
Qed.

(** X7: what the synchronizer leaves alone.  The patch document is built
    by splicing the node label name and the Service's host annotation into
    a JSON text without escaping.  When both hold plain bytes only
    (printable ASCII, no quote, no backslash), so that the document is the
    one-label patch, and the GatewayPolicy is stored under its own name, a
    run of the synchronizer changes no Service, adds and removes no
    GatewayPolicy, and changes of a GatewayPolicy at most the address and
    the labels of the node selector: metadata, selectors, CIDRs and
    interface stay.  (For another host annotation the document is not the
    one-label patch and the property is not stated.) *)
Theorem sync_keeps_derived_shape K service cegp w :
  plainText (NodeNameAnnotation K) = true →
  plainText (currentHostOf K service) = true →
  (∀ g, gatewayPolicies (store w) !! keyOf (gp_meta cegp) = Some g →
        keyOf (gp_meta g) = keyOf (gp_meta cegp)) →
  wp (SyncServiceWithCiliumEgressGatewayPolicy K service cegp) w (λ _ w',
    services (store w') = services (store w) ∧
    ∀ k, match gatewayPolicies (store w) !! k,
               gatewayPolicies (store w') !! k with
         | Some g, Some g' => sameShape g g'
         | None, None => True
         | _, _ => False
         end).
Proof. intros Hlabel Hhost H. by apply Sync_shape. Qed.

(** *** One successful Reconcile is enough *)

Lemma wp_conj {A} (m : M A) w (Q1 Q2 : A → World → Prop) :
  wp m w Q1 → wp m w Q2 → wp m w (λ a w', Q1 a w' ∧ Q2 a w').
Proof. by split. Qed.

Lemma gatewayPolicyInSync_ext K r ha ha' s s' :
  ha_meta ha' = ha_meta ha → ha_Spec ha' = ha_Spec ha →
  gatewayPolicies s' = gatewayPolicies s →
  gatewayPolicyInSync K r ha' s' = gatewayPolicyInSync K r ha s.
Proof.
  intros Hm Hs Hg.
  unfold gatewayPolicyInSync, gatewayPolicyKey, serviceNamespaceOf.
  by rewrite Hm, Hs, Hg.
Qed.

Lemma serviceInSync_ext K r ha ha' s s' :
  ha_meta ha' = ha_meta ha → ha_Spec ha' = ha_Spec ha →
  services s' = services s →
  serviceInSync K r ha' s' = serviceInSync K r ha s.
Proof.
  intros Hm Hs Hg.
  unfold serviceInSync, serviceKey, desiredSelector, serviceNamespaceOf.
  by rewrite Hm, Hg.
Qed.

Lemma gatewayPolicy_step_converges K r ha w :
  plainText (NodeNameAnnotation K) = true →
  (∀ svc, services (store w) !! serviceKey K r ha = Some svc →
          plainText (currentHostOf K svc) = true) →
  (∀ gp, gatewayPolicies (store w) !! gatewayPolicyKey K r ha = Some gp →
         IsControlledBy (gp_meta gp) (ha_meta ha) = true ∧
         keyOf (gp_meta gp) = gatewayPolicyKey K r ha) →
  wp (UpdateOrCreateCiliumEgressGatewayPolicy K r ha) w (λ err w',
    err = None → gatewayPolicyInSync K r ha (store w') = true).
Proof.
  intros Hlabel Hhost Hgp. unfold gatewayPolicyInSync.
  unfold gatewayPolicyKey, serviceKey, keyOf in *.
  destruct (gatewayPolicies (store w) !! _) as [ex|] eqn:Hex.
  - destruct (Hgp ex eq_refl) as [Hown Hkey]. clear Hgp Hhost.
    unfold UpdateOrCreateCiliumEgressGatewayPolicy. wp_steps.
    all: try done; intros _; cbn [store wrote gatewayPolicies].
    + rewrite ?Hkey, lookup_insert_eq. cbn. rewrite Hown.
      by rewrite bool_decide_eq_true_2.
    + rewrite Hex, Hown. apply bool_decide_eq_false in E1.
      apply dec_stable in E1. by rewrite bool_decide_eq_true_2.
  - clear Hgp. unfold UpdateOrCreateCiliumEgressGatewayPolicy. wp_steps.
    all: try done.
    all: try (intros _; cbn [store called wrote gatewayPolicies];
              rewrite lookup_insert_eq; cbn [gp_meta gp_Spec];
              rewrite IsControlledBy_controllerRef;
              by rewrite bool_decide_eq_true_2).
    eapply wp_mono.
    { apply Sync_shape; [done|by eapply Hhost|].
      cbn [store called gatewayPolicies gp_meta].
      unfold keyOf; cbn [Name Namespace].
      intros g. rewrite lookup_insert_eq. by intros [= <-]. }
    intros [res err] w1 [_ Hshape]; cbn beta. wp_steps. intros _.
    specialize (Hshape (EmptyString,
      serviceNamespaceOf K r ha +:+ "-" +:+ Name (ha_meta ha))).
    cbn [store called gatewayPolicies] in Hshape.
    rewrite lookup_insert_eq in Hshape.
    destruct (gatewayPolicies (store w1) !! _) as [g'|]; [|done].
    destruct Hshape as (Hm & Hsel & _). rewrite Hm, Hsel.
    cbn [gp_meta gp_Spec].
    rewrite IsControlledBy_controllerRef. by rewrite bool_decide_eq_true_2.
Qed.

Lemma service_step_converges K r ha w :
  (∀ svc, services (store w) !! serviceKey K r ha = Some svc →
          IsControlledBy (svc_meta svc) (ha_meta ha) = true) →
  wp (UpdateOrCreateService K r ha) w (λ err w',
    err = None → serviceInSync K r ha (store w') = true).
Proof.
  intros Hsvc. unfold serviceInSync. unfold serviceKey in *.
  destruct (services (store w) !! _) as [ex|] eqn:Hex.
  - pose proof (Hsvc ex eq_refl) as Hown. clear Hsvc.
    unfold UpdateOrCreateService. wp_steps.
    all: try done.
    + unfold writeResult. rewrite Hex.
      destruct (hd None (tail (tail (faults w)))); [done|]. intros _.
      cbn [services]. rewrite lookup_insert_eq. cbn [svc_meta svc_Spec Selector].
      rewrite IsControlledBy_controllerRef. by rewrite bool_decide_eq_true_2.
    + intros _. rewrite Hex, Hown. apply bool_decide_eq_false in E1.
      apply dec_stable in E1. by rewrite bool_decide_eq_true_2.
  - clear Hsvc. unfold UpdateOrCreateService. wp_steps.
    all: try done.
    unfold writeResult. rewrite Hex.
    destruct (hd None (tail (tail (faults w)))); [done|]. intros _.
    cbn [services]. rewrite lookup_insert_eq. cbn [svc_meta svc_Spec Selector].
    rewrite IsControlledBy_controllerRef. by rewrite bool_decide_eq_true_2.
Qed.

Lemma Reconcile_converges K r req ha w :
  plainText (NodeNameAnnotation K) = true →
  (∀ svc, services (store w) !! serviceKey K r ha = Some svc →
          plainText (currentHostOf K svc) = true) →
  policies (store w) !! req = Some ha →
  (∀ gp, gatewayPolicies (store w) !! gatewayPolicyKey K r ha = Some gp →
         IsControlledBy (gp_meta gp) (ha_meta ha) = true ∧
         keyOf (gp_meta gp) = gatewayPolicyKey K r ha) →
  (∀ svc, services (store w) !! serviceKey K r ha = Some svc →
          IsControlledBy (svc_meta svc) (ha_meta ha) = true) →
  wp (Reconcile K r req) w (λ res w',
    res.2 = None →
    gatewayPolicyInSync K r ha (store w') = true ∧
    serviceInSync K r ha (store w') = true).
Proof.
  intros Hlabel Hhost Hpol Hgp Hsvc. unfold Reconcile. wp_steps; [done|].
  eapply wp_mono.
  { apply wp_conj; [by apply gatewayPolicy_step_converges|].
    apply Keeps_wp, UpdateOrCreateCiliumEgressGatewayPolicy_keeps_services. }
  intros e1 w1 (Hin1 & Hs1 & _); cbn beta. unfold sameOn in Hs1; cbn in Hs1.
  wp_steps; [done|]. specialize (Hin1 eq_refl).
  eapply wp_mono.
  { apply wp_conj; [apply service_step_converges; by rewrite Hs1|].
    apply Keeps_wp, UpdateOrCreateService_keeps_gatewayPolicies. }
  intros e2 w2 (Hin2 & Hs2 & _); cbn beta. unfold sameOn in Hs2.
  wp_steps; [done|]. intros _. split; [|by apply Hin2].
  by rewrite <- Hin1; apply gatewayPolicyInSync_ext.
Qed.

(** X8: one successful Reconcile is enough.  Take a stored Policy whose
    derived objects, where they exist, are controlled by it (the
    GatewayPolicy stored under its own name), and let the node label name
    and the host annotation of the Service, if there is one, hold plain
    bytes only, so that a patch the embedded synchronizer sends is the
    one-label patch.  Then a Reconcile that returns a nil error leaves
    both derived objects in the desired state, whichever of them it had to
    create or update on the way; and a second Reconcile run from there
    makes only read calls, records no event and leaves the store as it
    is. *)
Theorem reconcile_converges K r req ha w :
  plainText (NodeNameAnnotation K) = true →
  policies (store w) !! req = Some ha →
  (∀ gp, gatewayPolicies (store w) !! gatewayPolicyKey K r ha = Some gp →
         IsControlledBy (gp_meta gp) (ha_meta ha) = true ∧
         keyOf (gp_meta gp) = gatewayPolicyKey K r ha) →
  (∀ svc, services (store w) !! serviceKey K r ha = Some svc →
          IsControlledBy (svc_meta svc) (ha_meta ha) = true ∧
          plainText (currentHostOf K svc) = true) →
  wp (Reconcile K r req) w (λ res w1,
    res.2 = None →
    gatewayPolicyInSync K r ha (store w1) = true ∧
    serviceInSync K r ha (store w1) = true ∧
    wp (Reconcile K r req) w1 (λ _ w2,
      store w2 = store w1 ∧ events w2 = events w1 ∧
      ∃ cs, trace w2 = trace w1 ++ cs ∧ readsOnly cs)).
Proof.
  intros Hlabel Hpol Hgp Hsvc.
  eapply wp_mono.
  { apply wp_conj.
    - apply (Reconcile_converges K r req ha); [done| |done|done|].
      + intros svc Hin. by apply Hsvc.
      + intros svc Hin. by apply Hsvc.
    - apply Keeps_wp, (Reconcile_keeps_policies K r req). }
  intros res w1 (Hin & Hframe & _) Hnil; cbn beta in *.
  destruct (Hin Hnil) as [Hg Hs]. do 2 (split; [done|]).
  specialize (Hframe req). rewrite Hpol in Hframe.
  destruct (policies (store w1) !! req) as [ha'|] eqn:Hpol'; [|done].
  destruct Hframe as [Hm Hsp].
  apply (inSync_Reconcile K r req ha'); [done|..].
  - by rewrite <- Hg; apply gatewayPolicyInSync_ext.
  - by rewrite <- Hs; apply serviceInSync_ext.
Qed.

(** *** The synchronizer, outcome by outcome *)

Lemma syncAddress_quiet K service cegp ha w :
  wp (syncAddress K service cegp ha) w (λ a w1,
    events w1 = events w ∧
    ∃ cs, trace w1 = trace w ++ cs ∧
      Forall (λ ce, isPatch ce.1 = false) cs ∧
      (Ingress (svc_Status service) = [] →
       cs = [] ∧ store w1 = store w ∧ a = inr ha) ∧
      match a with
      | inl (res, oe) =>
          res = mkResult (HAEgressGatewayPolicyChcekRequeueAfter K) ∧
          ∃ cs0 c e, cs = cs0 ++ [(c, Some e)] ∧
            match oe with
            | Some e' =>
                e' = e ∧ c = GetGatewayPolicyCall (keyOf (gp_meta cegp))
            | None => ∃ o, c = UpdateGatewayPolicyCall o
            end
      | inr _ => True
      end).
Proof.
  unfold syncAddress, keyOf. wp_steps.
  all: (split; [reflexivity|]); trace_ex.
  all: (split; [by repeat constructor|]).
  all: (split; [try done|]).
  all: try done.
  all: split; [done|].
  all: first [ by eexists [], _, _ | eexists [_], _, _; split; [done|eauto] ].
Qed.

Lemma syncNode_spec K service cegp ha w :
  wp (syncNode K service cegp ha) w (λ res w',
    ∃ cs, trace w' = trace w ++ cs ∧
      (currentHostOf K service = EmptyString →
       cs = [] ∧ store w' = store w ∧ events w' = events w ∧
       res = (mkResult 0, None)) ∧
      (if existsb patched cs
       then events w' = events w ++ nodeEvents K service cegp ∧
            res = (mkResult 0, None)
       else events w' = events w) ∧
      match res.2 with
      | Some e =>
          res.1 = mkResult (LeaseCheckRequeueAfter K) ∧
          ∃ cs0, cs = cs0 ++ [(PatchGatewayPolicyCall (keyOf (gp_meta cegp))
                                 (NodeNameAnnotation K) (currentHostOf K service),
                               Some e)]
      | None => True
      end).
Proof.
  unfold syncNode, keyOf, nodeEvents, currentHostOf. wp_steps.
  all: try (apply bool_decide_eq_false in E).
  all: trace_ex.
  all: (split; [try done|]).
  all: rewrite ?existsb_app; cbn [existsb patched orb fst snd].
  all: rewrite <- ?app_assoc.
  all: try done.
  all: split; [done|].
  all: split; [done|].
  all: first [ by eexists [] | by eexists [_] ].
Qed.

(** X9: the errors the synchronizer returns.  A run returns an error in
    two situations only, and the failed call is then the last of the run:
    the re-fetch of the GatewayPolicy failed, with the check-requeue delay,
    or the node-selector patch failed, with the lease-check delay.  A failed
    read of the owning Policy, a failed update of the address and failed
    status updates are never returned as an error. *)
Theorem sync_error_shape K service cegp w :
  wp (SyncServiceWithCiliumEgressGatewayPolicy K service cegp) w (λ res w',
    match res.2 with
    | Some e =>
        ∃ cs0 c, trace w' = trace w ++ cs0 ++ [(c, Some e)] ∧
          ((c = GetGatewayPolicyCall (keyOf (gp_meta cegp)) ∧
            res.1 = mkResult (HAEgressGatewayPolicyChcekRequeueAfter K)) ∨
           (c = PatchGatewayPolicyCall (keyOf (gp_meta cegp))
                  (NodeNameAnnotation K) (currentHostOf K service) ∧
            res.1 = mkResult (LeaseCheckRequeueAfter K)))
    | None => True
    end).
Proof.
  unfold SyncServiceWithCiliumEgressGatewayPolicy.
  apply wp_bind. eapply wp_mono; [apply syncFetchOwner_spec|].
  intros o w1 (_ & _ & own & Ht1 & _); cbn beta.
  destruct o as [err|ha]; [by wp_steps|].
  apply wp_bind. eapply wp_mono; [apply syncAddress_quiet|].
  intros a w2 (_ & addr & Ht2 & _ & _ & Ha); cbn beta.
  destruct a as [[res [e|]]|ha'].
  - wp_steps. destruct Ha as (-> & cs0 & c & e' & -> & <- & ->).
    exists (own ++ cs0), (GetGatewayPolicyCall (keyOf (gp_meta cegp))).
    split; [by rewrite Ht2, Ht1, <- !app_assoc|]. by left.
  - by wp_steps.
  - eapply wp_mono; [apply syncNode_spec|].
    intros res w3 (node & Ht3 & _ & _ & Hn); cbn beta.
    destruct (res.2) as [e|]; [|done].
    destruct Hn as (Hres & cs0 & ->).
    exists (own ++ addr ++ cs0). eexists.
    split; [by rewrite Ht3, Ht2, Ht1, <- !app_assoc|]. by right.
Qed.

Lemma existsb_patched_none cs :
  Forall (λ ce : Call * option Error, isPatch ce.1 = false) cs →
  existsb patched cs = false.
Proof.
  induction 1 as [|[c e] cs Hc _ IH]; [done|]. cbn [existsb].
  rewrite IH, orb_false_r. by destruct c, e.
Qed.

(** X10: the events of the synchronizer.  A run records events exactly
    when its node-selector patch succeeded: then it records the pair of
    events, on the GatewayPolicy and on the Service, that name the current
    host, and returns a nil error with no requeue delay; in every other run
    the recorded events stay as they were, whatever was written. *)
Theorem sync_events_follow_patch K service cegp w :
  wp (SyncServiceWithCiliumEgressGatewayPolicy K service cegp) w (λ res w',
    ∃ cs, trace w' = trace w ++ cs ∧
      if existsb patched cs
      then events w' = events w ++ nodeEvents K service cegp ∧
           res = (mkResult 0, None)
      else events w' = events w).
Proof.
  unfold SyncServiceWithCiliumEgressGatewayPolicy.
  apply wp_bind. eapply wp_mono; [apply syncFetchOwner_spec|].
  intros o w1 (_ & He1 & own & Ht1 & Hown); cbn beta.
  assert (existsb patched own = false) as Hpo.
  { by destruct Hown as [(_ & -> & _)|(ref & e & _ & -> & _)]. }
  destruct o as [err|ha].
  { wp_steps. exists own. by rewrite Hpo. }
  apply wp_bind. eapply wp_mono; [apply syncAddress_quiet|].
  intros a w2 (He2 & addr & Ht2 & Hpa%existsb_patched_none & _); cbn beta.
  destruct a as [res|ha'].
  { wp_steps. exists (own ++ addr).
    rewrite Ht2, Ht1, <- app_assoc, existsb_app, Hpo, Hpa.
    split; [done|]. cbn. congruence. }
  eapply wp_mono; [apply syncNode_spec|].
  intros res w3 (node & Ht3 & _ & Hev & _); cbn beta.
  exists (own ++ addr ++ node).
  rewrite Ht3, Ht2, Ht1, <- !app_assoc, !existsb_app, Hpo, Hpa.
  split; [done|]. cbn [orb]. by rewrite <- He1, <- He2.
Qed.

(** X11: a Service without a host annotation.  The synchronizer then
    sends no patch and records no event.  When the Service reports no
    ingress address either, the run changes nothing in the store: its only
    possible call is the read of the owning Policy, and it returns a nil
    error with no requeue delay. *)
Theorem sync_without_host K service cegp w :
  currentHostOf K service = EmptyString →
  wp (SyncServiceWithCiliumEgressGatewayPolicy K service cegp) w (λ res w',
    events w' = events w ∧
    ∃ cs, trace w' = trace w ++ cs ∧
      Forall (λ ce, isPatch ce.1 = false) cs ∧
      (Ingress (svc_Status service) = [] →
       store w' = store w ∧ readsOnly cs ∧ length cs ≤ 1 ∧
       res = (mkResult 0, None))).
Proof.
  intros Hhost. unfold SyncServiceWithCiliumEgressGatewayPolicy.
  apply wp_bind. eapply wp_mono; [apply syncFetchOwner_spec|].
  intros o w1 (Hs1 & He1 & own & Ht1 & Hown); cbn beta.
  assert (Forall (λ ce : Call * option Error, isPatch ce.1 = false) own
          ∧ readsOnly own ∧ length own ≤ 1) as (Hpo & Hro & Hlo).
  { destruct Hown as [(_ & -> & _)|(ref & e & _ & -> & _)];
      repeat split; by repeat constructor. }
  destruct o as [err|ha].
  { wp_steps. split; [done|]. by exists own. }
  apply wp_bind. eapply wp_mono; [apply syncAddress_quiet|].
  intros a w2 (He2 & addr & Ht2 & Hpa & Hnil & _); cbn beta.
  destruct a as [res|ha'].
  { wp_steps. split; [congruence|]. exists (own ++ addr).
    rewrite Ht2, Ht1, <- app_assoc. split; [done|].
    split; [by apply Forall_app|]. by intros (_ & _ & [=])%Hnil. }
  eapply wp_mono; [apply syncNode_spec|].
  intros res w3 (node & Ht3 & Hn & _); cbn beta.
  destruct (Hn Hhost) as (-> & Hs3 & He3 & ->).
  split; [congruence|]. exists (own ++ addr).
  rewrite Ht3, Ht2, Ht1, <- !app_assoc, app_nil_r. split; [done|].
  split; [by apply Forall_app|].
  intros (-> & Hs2 & _)%Hnil. rewrite app_nil_r.
  repeat split; [congruence|done..].
Qed.

(** *** The activity marker and the sweep *)

Lemma KeepsClock_ret {A} (a : A) : KeepsClock (mret a : M A).
Proof. by intros w. Qed.

Lemma KeepsClock_bind {A B} (m : M A) (f : A → M B) :
  KeepsClock m → (∀ a, KeepsClock (f a)) → KeepsClock (m ≫= f).
Proof.
  intros Hm Hf w. unfold mbind, M_bind.
  destruct (Hm w) as [Hn Hl]. destruct (m w) as [a w1]; cbn in *.
  destruct (Hf a w1) as [Hn' Hl']. split; congruence.
Qed.

Lemma KeepsClock_storeGet {A} (c : Call) (sel : Cluster → gmap NamespacedName A)
  key : KeepsClock (storeGet c sel key).
Proof. by intros w. Qed.

Lemma KeepsClock_storeWrite (c : Call) upd : KeepsClock (storeWrite c upd).
Proof. by intros w. Qed.

Lemma KeepsClock_RecorderEvent k m ty reason msg :
  KeepsClock (RecorderEvent k m ty reason msg).
Proof. by intros w. Qed.

Ltac clock_step :=
  lazymatch goal with
  | |- KeepsClock (mbind _ _) => apply KeepsClock_bind; [|intros ?]
  | |- KeepsClock (mret _) => apply KeepsClock_ret
  | |- KeepsClock (match ?x with _ => _ end) => destruct x
  | |- KeepsClock (RecorderEvent _ _ _ _ _) => apply KeepsClock_RecorderEvent
  | |- KeepsClock (storeGet _ _ _) => apply KeepsClock_storeGet
  | |- KeepsClock (storeWrite _ _) => apply KeepsClock_storeWrite
  | |- KeepsClock _ => by intros ?
  end.

Lemma Sync_keeps_clock K service cegp :
  KeepsClock (SyncServiceWithCiliumEgressGatewayPolicy K service cegp).
Proof.
  unfold SyncServiceWithCiliumEgressGatewayPolicy, syncFetchOwner, syncAddress,
    syncNode.
  repeat clock_step.
Qed.

Lemma gatewayPolicy_step_marker K r ha w :
  wp (UpdateOrCreateCiliumEgressGatewayPolicy K r ha) w (λ _ w',
    now w' = now w ∧ lastServiceUpdate w' = Some (now w)).
Proof.
  unfold UpdateOrCreateCiliumEgressGatewayPolicy.
  apply wp_bind, wp_timeNow, wp_bind, wp_lastServiceUpdateStore.
  match goal with
  | |- wp ?m ?w1 _ =>
      assert (KeepsClock m) as Hk;
      [|destruct (Hk w1) as [Hn Hl]; unfold wp; by rewrite Hn, Hl]
  end.
  repeat first [ apply Sync_keeps_clock | clock_step ].
Qed.

Lemma service_step_marker K r ha w :
  wp (UpdateOrCreateService K r ha) w (λ _ w',
    now w' = now w ∧ lastServiceUpdate w' = Some (now w)).
Proof.
  unfold UpdateOrCreateService.
  apply wp_bind, wp_timeNow, wp_bind, wp_lastServiceUpdateStore.
  match goal with
  | |- wp ?m ?w1 _ =>
      assert (KeepsClock m) as Hk;
      [|destruct (Hk w1) as [Hn Hl]; unfold wp; by rewrite Hn, Hl]
  end.
  repeat clock_step.
Qed.

(** X12: the activity marker.  Each of the two steps stores the clock
    reading at its entry as the marker, whatever it finds and whether or
    not it fails afterwards; the synchronizer never touches the marker. *)
Theorem marker_set_by_every_step K r ha service cegp w :
  lastServiceUpdate (UpdateOrCreateCiliumEgressGatewayPolicy K r ha w).2
  = Some (now w) ∧
  lastServiceUpdate (UpdateOrCreateService K r ha w).2 = Some (now w) ∧
  lastServiceUpdate (SyncServiceWithCiliumEgressGatewayPolicy K service cegp w).2
  = lastServiceUpdate w.
Proof.
  split; [apply gatewayPolicy_step_marker|].
  split; [apply service_step_marker|]. apply Sync_keeps_clock.
Qed.

Lemma Reconcile_marker K r req ha w :
  policies (store w) !! req = Some ha → hd None (faults w) = None →
  wp (Reconcile K r req) w (λ _ w',
    now w' = now w ∧ lastServiceUpdate w' = Some (now w)).
Proof.
  intros Hpol Hf. unfold Reconcile. wp_steps.
  eapply wp_mono; [apply gatewayPolicy_step_marker|].
  intros e1 w1 [Hn1 Hl1]; cbn beta. cbn in Hn1, Hl1. wp_steps; [by split|].
  eapply wp_mono; [apply service_step_marker|].
  intros e2 w2 [Hn2 Hl2]; cbn beta. rewrite Hn1 in *.
  wp_steps; by split.
Qed.

(** X13: a Reconcile delays the sweep.  When Reconcile has read its
    Policy, the marker holds the clock reading of that run, and a tick that
    arrives less than the threshold later changes nothing but the clock: it
    makes no call. *)
Theorem reconcile_delays_sweep K r req ha w t :
  policies (store w) !! req = Some ha →
  hd None (faults w) = None →
  (timeSub t (now w) < skipThreshold r)%Z →
  wp (Reconcile K r req) w (λ _ w1,
    lastServiceUpdate w1 = Some (now w) ∧
    backgroundPeriodicalCheck K r [t] w1 = (tt, (clockSet t w1).2)).
Proof.
  intros Hpol Hf Ht.
  eapply wp_mono; [by apply (Reconcile_marker K r req ha)|].
  intros _ w1 [Hn Hl]; cbn beta. split; [done|].
  unfold backgroundPeriodicalCheck. cbn [forEach].
  unfold mbind, M_bind. cbn [clockSet].
  by rewrite (backgroundTick_skip K r _ (now w)).
Qed.

Lemma sweep_inSync K r items w :
  (∀ ha, ha ∈ items →
         gatewayPolicyInSync K r ha (store w) = true ∧
         serviceInSync K r ha (store w) = true) →
  wp (forEach items
        (λ policy,
           _ ← UpdateOrCreateCiliumEgressGatewayPolicy K r policy;
           _ ← UpdateOrCreateService K r policy;
           mret tt)) w
    (λ _ w', store w' = store w ∧ events w' = events w ∧
             ∃ cs, trace w' = trace w ++ cs ∧ readsOnly cs).
Proof.
  revert w. induction items as [|ha items IH]; intros w Hall; cbn [forEach].
  { wp_steps. do 2 (split; [done|]). exists []. rewrite app_nil_r.
    split; [done|constructor]. }
  destruct (Hall ha) as [Hg Hs]; [by left|].
  apply wp_bind, wp_bind.
  eapply wp_mono; [by apply inSync_gatewayPolicy_step|].
  intros e1 w1 (Hs1 & He1 & cs1 & Ht1 & Hr1); cbn beta.
  apply wp_bind.
  eapply wp_mono; [apply inSync_service_step; by rewrite Hs1|].
  intros e2 w2 (Hs2 & He2 & cs2 & Ht2 & Hr2); cbn beta.
  wp_steps.
  eapply wp_mono.
  { apply IH. intros ha' Hin. rewrite Hs2, Hs1. apply Hall. by right. }
  intros _ w3 (Hs3 & He3 & cs3 & Ht3 & Hr3); cbn beta.
  split; [congruence|]. split; [congruence|].
  exists (cs1 ++ cs2 ++ cs3). rewrite Ht3, Ht2, Ht1, <- !app_assoc.
  split; [done|]. by repeat apply readsOnly_app.
Qed.

(** X14: a sweep over a cluster at rest.  When the marker is old enough
    for the sweep to run and both derived objects of every stored Policy
    are in the desired state, the tick lists the Policies and then only
    reads: no create, update or patch call is made, no event is recorded and
    the store stays as it is.  When the list call fails, it is the only
    call of the tick. *)
Theorem sweep_converged_reads_only K r w lastUpdate :
  lastServiceUpdate w = Some lastUpdate →
  (skipThreshold r ≤ timeSub (now w) lastUpdate)%Z →
  (∀ k ha, policies (store w) !! k = Some ha →
           gatewayPolicyInSync K r ha (store w) = true ∧
           serviceInSync K r ha (store w) = true) →
  wp (backgroundTick K r) w (λ _ w',
    store w' = store w ∧ events w' = events w ∧
    ∃ cs, trace w'
          = trace w
            ++ (ListPoliciesCall,
                errorOf (listResult (hd None (faults w)) (store w))) :: cs ∧
          readsOnly cs ∧
          (hd None (faults w) ≠ None → cs = [])).
Proof.
  intros Hm Hge Hall. unfold wp.
  rewrite (backgroundTick_sweep K r w lastUpdate) by (done || lia).
  unfold listResult.
  destruct (hd None (faults w)) as [code|].
  { do 2 (split; [done|]). exists []. split; [done|]. split; [constructor|done]. }
  destruct (sweep_inSync K r ((map_to_list (policies (store w))).*2)
              (called ListPoliciesCall None w))
    as (Hs1 & He1 & cs & Ht & Hr).
  { intros ha Hin. cbn [store called].
    apply list_elem_of_fmap in Hin as ([k ha'] & -> & Hin).
    apply elem_of_map_to_list in Hin. by apply (Hall k). }
  do 2 (split; [done|]).
  exists cs. split; [|by split]. cbn in Ht. by rewrite Ht, <- app_assoc.
Qed.

(** X15: from the reconciler to the router.  For the objects the
    reconciler builds, a delete event gives exactly one reconcile request:
    the name of the owning Policy, with the namespace of the deleted object,
    which is the target namespace for the Service and the empty namespace
    for the GatewayPolicy. *)
Theorem router_finds_owner_of_built_objects K r ha :
  watchRequests ServiceKind (DeleteEvent (svc_meta (ownedService K r ha)))
  = [(serviceNamespaceOf K r ha, Name (ha_meta ha))] ∧
  watchRequests GatewayPolicyKind
    (DeleteEvent (gp_meta (ownedGatewayPolicy K r ha)))
  = [(EmptyString, Name (ha_meta ha))].
Proof. by split. Qed.

(** *** The synchronizer at rest *)

Lemma syncAddress_converged K service cegp ha w :
  (∀ i rest, Ingress (svc_Status service) = i :: rest →
             IPAddress (ha_Status ha) = IP i) →
  (∀ i rest g, Ingress (svc_Status service) = i :: rest →
               gatewayPolicies (store w) !! keyOf (gp_meta cegp) = Some g →
               EgressIP (egressGateway (gp_Spec g)) = IP i) →
  wp (syncAddress K service cegp ha) w (λ a w1,
    store w1 = store w ∧ events w1 = events w ∧
    (∃ cs, trace w1 = trace w ++ cs ∧ readsOnly cs ∧ length cs ≤ 1) ∧
    ∀ ha', a = inr ha' → ha' = ha).
Proof.
  intros Hip Hg. unfold keyOf in *. unfold syncAddress.
  destruct (Ingress (svc_Status service)) as [|i rest] eqn:Hing.
  { wp_steps. do 2 (split; [done|]). split; [|by intros ? [=]].
    exists []. rewrite app_nil_r. split; [done|]. split; [constructor|].
    cbn. lia. }
  assert (bool_decide (IPAddress (ha_Status ha) ≠ IP i) = false) as Hb1.
  { apply bool_decide_eq_false_2. intros []. by eapply Hip. }
  apply wp_bind, wp_storeGet. unfold getResult.
  destruct (hd None (faults w)) as [code|]; world_simpl.
  { wp_steps. do 2 (split; [done|]). split; [|done].
    trace_ex. split; [by repeat constructor|]. cbn. lia. }
  destruct (gatewayPolicies (store w) !! _) as [g|] eqn:Hlook; world_simpl.
  2:{ wp_steps. do 2 (split; [done|]). split; [|done].
      trace_ex. split; [by repeat constructor|]. cbn. lia. }
  rewrite (bool_decide_eq_false_2 (EgressIP (egressGateway (gp_Spec g)) ≠ IP i))
    by (intros []; by eapply Hg).
  wp_steps. do 2 (split; [done|]). split; [|by intros ? [=]].
  trace_ex. split; [by repeat constructor|]. cbn. lia.
Qed.

Lemma syncNode_converged K service cegp ha w :
  ExitNode (ha_Status ha) = currentHostOf K service →
  (currentHostOf K service ≠ EmptyString →
   policyHostOf K cegp = currentHostOf K service) →
  syncNode K service cegp ha w = (mkResult 0, None, w).
Proof.
  intros Hexit Hhost. unfold currentHostOf, policyHostOf in *.
  unfold syncNode. case_bool_decide as Hc; [done|].
  rewrite (bool_decide_eq_false_2 (ExitNode (ha_Status ha) ≠ _))
    by (by intros []).
  unfold mbind, M_bind, mret, M_ret.
  by rewrite bool_decide_eq_true_2 by auto.
Qed.

(** X16: the synchronizer at rest.  When the Policy named by the first
    owner reference of the kind already reports the Service's first ingress
    address and current host in its status, the stored GatewayPolicy
    carries that address, and the node selector of the GatewayPolicy passed
    in names the current host, a run makes at most two calls, both reads
    (the owning Policy and, with an ingress address, the re-fetch), records
    no event and leaves the store as it is. *)
Theorem sync_converged_reads_only K service cegp ref w :
  List.find isPolicyRef (OwnerReferences (gp_meta cegp)) = Some ref →
  (∀ p, policies (store w) !! (Namespace (gp_meta cegp), ref_Name ref) = Some p →
        (∀ i rest, Ingress (svc_Status service) = i :: rest →
                   IPAddress (ha_Status p) = IP i) ∧
        ExitNode (ha_Status p) = currentHostOf K service) →
  (∀ i rest g, Ingress (svc_Status service) = i :: rest →
               gatewayPolicies (store w) !! keyOf (gp_meta cegp) = Some g →
               EgressIP (egressGateway (gp_Spec g)) = IP i) →
  (currentHostOf K service ≠ EmptyString →
   policyHostOf K cegp = currentHostOf K service) →
  wp (SyncServiceWithCiliumEgressGatewayPolicy K service cegp) w (λ res w',
    store w' = store w ∧ events w' = events w ∧
    ∃ cs, trace w' = trace w ++ cs ∧ readsOnly cs ∧ length cs ≤ 2).
Proof.
  intros Hfind Hp Hg Hnode.
  unfold SyncServiceWithCiliumEgressGatewayPolicy, syncFetchOwner.
  rewrite Hfind. apply wp_bind, wp_storeGet. unfold getResult.
  destruct (hd None (faults w)) as [code|]; world_simpl.
  { wp_steps. do 2 (split; [done|]). trace_ex. split; [by repeat constructor|].
    cbn. lia. }
  destruct (policies (store w) !! _) as [p|] eqn:Hpol; world_simpl.
  2:{ wp_steps. do 2 (split; [done|]). trace_ex.
      split; [by repeat constructor|]. cbn. lia. }
  destruct (Hp p eq_refl) as [Hip Hexit].
  apply wp_bind. eapply wp_mono; [by apply syncAddress_converged|].
  intros a w1 (Hs1 & He1 & (cs & Ht1 & Hr1 & Hl1) & Ha); cbn beta.
  cbn in Hs1, He1, Ht1.
  assert (∃ cs0, trace w1 = trace w ++ cs0 ∧ readsOnly cs0 ∧ length cs0 ≤ 2)
    as Hcs.
  { eexists. split; [by rewrite Ht1, <- app_assoc|].
    split; [apply readsOnly_app; [by repeat constructor|done]|].
    cbn. lia. }
  destruct a as [res|ha']; [by wp_steps|].
  rewrite (Ha ha' eq_refl). unfold wp.
  by rewrite syncNode_converged.
Qed.

(** *** The further statements at concrete inputs *)

Lemma reconcile_policy_unavailable_witness :
  policies Sample.freshStore !! ("", "gone") = None ∧
  wp (Reconcile Sample.K Sample.r ("", "gone"))
    (Sample.emptyWorld Sample.freshStore)
    (λ res w',
       ∃ e, w' = called (GetPolicyCall ("", "gone")) (Some e)
                   (Sample.emptyWorld Sample.freshStore) ∧
            res = (mkResult 0, if IsNotFound e then None else Some e) ∧
            (e = NotFound
             ↔ hd None (faults (Sample.emptyWorld Sample.freshStore)) = None)).
Proof.
  split; [by vm_compute|].
  apply (reconcile_policy_unavailable Sample.K Sample.r ("", "gone")
           (Sample.emptyWorld Sample.freshStore)).
  right. by vm_compute.
Defined.

Lemma gatewayPolicy_selector_update_witness :
  gatewayPolicies Cases.driftedGatewayPolicyStore
  !! gatewayPolicyKey Sample.K Sample.r Sample.web
  = Some Cases.driftedGatewayPolicy ∧
  IsControlledBy (gp_meta Cases.driftedGatewayPolicy) (ha_meta Sample.web)
  = true ∧
  Selectors (gp_Spec Cases.driftedGatewayPolicy)
  ≠ Selectors (ha_Spec Sample.web) ∧
  wp (UpdateOrCreateCiliumEgressGatewayPolicy Sample.K Sample.r Sample.web)
    (Sample.emptyWorld Cases.driftedGatewayPolicyStore)
    (λ err w',
       match err with
       | None =>
           store w'
           = mkCluster (policies Cases.driftedGatewayPolicyStore)
               (<[gatewayPolicyKey Sample.K Sample.r Sample.web :=
                    mkCEGP (gp_meta Cases.driftedGatewayPolicy)
                      (withSelectors (Selectors (ha_Spec Sample.web))
                         (gp_Spec Cases.driftedGatewayPolicy))]>
                  (gatewayPolicies Cases.driftedGatewayPolicyStore))
               (services Cases.driftedGatewayPolicyStore) ∧
           events w'
           = [gatewayPolicyUpdatedEvent Sample.web "egress-system-web"] ∧
           trace w'
           = [(GetGatewayPolicyCall
                 (gatewayPolicyKey Sample.K Sample.r Sample.web), None);
              (UpdateGatewayPolicyCall
                 (mkCEGP (gp_meta Cases.driftedGatewayPolicy)
                    (withSelectors (Selectors (ha_Spec Sample.web))
                       (gp_Spec Cases.driftedGatewayPolicy))),
               None)]
       | Some _ =>
           store w' = Cases.driftedGatewayPolicyStore ∧ events w' = []
       end).
Proof.
  split; [by vm_compute|]. split; [by vm_compute|]. split; [by vm_compute|].
  apply (gatewayPolicy_selector_update Sample.K Sample.r Sample.web
           (Sample.emptyWorld Cases.driftedGatewayPolicyStore)
           Cases.driftedGatewayPolicy); by vm_compute.
Defined.

Lemma service_create_path_witness :
  services Sample.freshStore !! serviceKey Sample.K Sample.r Sample.web = None ∧
  wp (UpdateOrCreateService Sample.K Sample.r Sample.web)
    (Sample.emptyWorld Sample.freshStore)
    (λ err w',
       (err ≠ None ∧ store w' = Sample.freshStore ∧ events w' = [] ∧
        ∃ cs, trace w' = [] ++ cs ∧ readsOnly cs) ∨
       (trace w'
        = [] ++ [(GetServiceCall (serviceKey Sample.K Sample.r Sample.web),
                  Some NotFound);
                 (CreateServiceCall (ownedService Sample.K Sample.r Sample.web),
                  err)] ∧
        events w' = [] ++ [serviceCreatedEvent Sample.K Sample.r Sample.web] ∧
        store w'
        = match err with
          | None =>
              mkCluster (policies Sample.freshStore)
                (gatewayPolicies Sample.freshStore)
                (<[serviceKey Sample.K Sample.r Sample.web :=
                     ownedService Sample.K Sample.r Sample.web]>
                   (services Sample.freshStore))
          | Some _ => Sample.freshStore
          end)).
Proof.
  split; [by vm_compute|].
  apply (service_create_path Sample.K Sample.r Sample.web
           (Sample.emptyWorld Sample.freshStore)).
  by vm_compute.
Defined.

Lemma sync_keeps_derived_shape_witness :
  plainText (NodeNameAnnotation Sample.K) = true ∧
  plainText (currentHostOf Sample.K Sample.probeService) = true ∧
  wp (SyncServiceWithCiliumEgressGatewayPolicy Sample.K Sample.probeService
        (ownedGatewayPolicy Sample.K Sample.r Sample.web))
    Sample.syncedWorld
    (λ _ w',
       services (store w') = services (store Sample.syncedWorld) ∧
       ∀ k, match gatewayPolicies (store Sample.syncedWorld) !! k,
                  gatewayPolicies (store w') !! k with
            | Some g, Some g' => sameShape g g'
            | None, None => True
            | _, _ => False
            end).
Proof.
  split; [by vm_compute|]. split; [by vm_compute|].
  apply (sync_keeps_derived_shape Sample.K Sample.probeService
           (ownedGatewayPolicy Sample.K Sample.r Sample.web) Sample.syncedWorld);
    [by vm_compute|by vm_compute|].
  intros g Hg. vm_compute in Hg. injection Hg as <-. by vm_compute.
Defined.

Lemma reconcile_converges_witness :
  plainText (NodeNameAnnotation Sample.K) = true ∧
  policies Sample.driftedStore !! ("", "web") = Some Sample.web ∧
  services Sample.driftedStore !! serviceKey Sample.K Sample.r Sample.web
  = Some Sample.driftedService ∧
  serviceInSync Sample.K Sample.r Sample.web Sample.driftedStore = false ∧
  wp (Reconcile Sample.K Sample.r ("", "web"))
    (Sample.emptyWorld Sample.driftedStore)
    (λ res w1,
       res.2 = None →
       gatewayPolicyInSync Sample.K Sample.r Sample.web (store w1) = true ∧
       serviceInSync Sample.K Sample.r Sample.web (store w1) = true ∧
       wp (Reconcile Sample.K Sample.r ("", "web")) w1
         (λ _ w2,
            store w2 = store w1 ∧ events w2 = events w1 ∧
            ∃ cs, trace w2 = trace w1 ++ cs ∧ readsOnly cs)).
Proof.
  split; [by vm_compute|]. split; [by vm_compute|]. split; [by vm_compute|].
  split; [by vm_compute|].
  apply (reconcile_converges Sample.K Sample.r ("", "web") Sample.web
           (Sample.emptyWorld Sample.driftedStore)).
  - by vm_compute.
  - by vm_compute.
  - intros gp Hgp. by vm_compute in Hgp.
  - intros svc Hsvc. vm_compute in Hsvc. injection Hsvc as <-.
    split; by vm_compute.
Defined.

Lemma sync_without_host_witness :
  currentHostOf Sample.K Cases.pendingService = EmptyString ∧
  Ingress (svc_Status Cases.pendingService) = [] ∧
  wp (SyncServiceWithCiliumEgressGatewayPolicy Sample.K Cases.pendingService
        (ownedGatewayPolicy Sample.K Sample.r Sample.web))
    Sample.syncedWorld
    (λ res w',
       events w' = events Sample.syncedWorld ∧
       ∃ cs, trace w' = trace Sample.syncedWorld ++ cs ∧
         Forall (λ ce, isPatch ce.1 = false) cs ∧
         (Ingress (svc_Status Cases.pendingService) = [] →
          store w' = store Sample.syncedWorld ∧ readsOnly cs ∧ length cs ≤ 1 ∧
          res = (mkResult 0, None))).
Proof.
  split; [by vm_compute|]. split; [reflexivity|].
  apply (sync_without_host Sample.K Cases.pendingService
           (ownedGatewayPolicy Sample.K Sample.r Sample.web) Sample.syncedWorld).
  by vm_compute.
Defined.

Lemma reconcile_delays_sweep_witness :
  policies Sample.freshStore !! ("", "web") = Some Sample.web ∧
  (timeSub 1000 (now (Sample.emptyWorld Sample.freshStore))
   < skipThreshold Sample.r)%Z ∧
  wp (Reconcile Sample.K Sample.r ("", "web"))
    (Sample.emptyWorld Sample.freshStore)
    (λ _ w1,
       lastServiceUpdate w1 = Some (now (Sample.emptyWorld Sample.freshStore)) ∧
       backgroundPeriodicalCheck Sample.K Sample.r [1000%Z] w1
       = (tt, (clockSet 1000 w1).2)).
Proof.
  split; [by vm_compute|]. split; [by vm_compute|].
  apply (reconcile_delays_sweep Sample.K Sample.r ("", "web") Sample.web
           (Sample.emptyWorld Sample.freshStore) 1000); by vm_compute.
Defined.

Lemma sweep_converged_reads_only_witness :
  lastServiceUpdate Cases.staleWorld = Some 0%Z ∧
  (skipThreshold Sample.r ≤ timeSub (now Cases.staleWorld) 0)%Z ∧
  wp (backgroundTick Sample.K Sample.r) Cases.staleWorld
    (λ _ w',
       store w' = store Cases.staleWorld ∧ events w' = events Cases.staleWorld ∧
       ∃ cs, trace w'
             = trace Cases.staleWorld
               ++ (ListPoliciesCall,
                   errorOf (listResult (hd None (faults Cases.staleWorld))
                              (store Cases.staleWorld))) :: cs ∧
             readsOnly cs ∧
             (hd None (faults Cases.staleWorld) ≠ None → cs = [])).
Proof.
  split; [reflexivity|]. split; [by vm_compute|].
  apply (sweep_converged_reads_only Sample.K Sample.r Cases.staleWorld 0).
  - reflexivity.
  - by vm_compute.
  - intros k ha Hk.
    assert (policies (store Cases.staleWorld) = {[ ("", "web") := Sample.web ]})
      as Hp by (by vm_compute).
    rewrite Hp in Hk. apply lookup_singleton_Some in Hk as [_ <-].
    clear Hp. split; vm_compute; reflexivity.
Defined.

Lemma sync_converged_reads_only_witness :
  List.find isPolicyRef (OwnerReferences (gp_meta Cases.driftedGatewayPolicy))
  = Some (Sample.policyRef "web" "uid-web") ∧
  policyHostOf Sample.K Cases.driftedGatewayPolicy
  = currentHostOf Sample.K Sample.probeService ∧
  wp (SyncServiceWithCiliumEgressGatewayPolicy Sample.K Sample.probeService
        Cases.driftedGatewayPolicy)
    Cases.convergedWorld
    (λ res w',
       store w' = store Cases.convergedWorld ∧
       events w' = events Cases.convergedWorld ∧
       ∃ cs, trace w' = trace Cases.convergedWorld ++ cs ∧ readsOnly cs ∧
             length cs ≤ 2).
Proof.
  split; [by vm_compute|]. split; [by vm_compute|].
  apply (sync_converged_reads_only Sample.K Sample.probeService
           Cases.driftedGatewayPolicy (Sample.policyRef "web" "uid-web")
           Cases.convergedWorld).
  - by vm_compute.
  - intros p Hp. vm_compute in Hp. injection Hp as <-. split; [|by vm_compute].
    intros i rest [= <- <-]. by vm_compute.
  - intros i rest g [= <- <-] Hg. vm_compute in Hg. injection Hg as <-.
    by vm_compute.
  - intros _. by vm_compute.
Defined.
